(** * MidiPlayer: the playback controller of src/MidiPlayer.js

    A shallow embedding of the [MidiPlayer] class.  The controller only
    sequences calls to three collaborators: the synthesis engine
    ([LibTiMidity]), the host audio output (an [AudioContext] and its nodes)
    and the event sink ([EventHandler]).  Every call to a collaborator is
    appended to a chronological trace; what the collaborator answers (a
    number, a string, an exception) is read from an [environment], a
    function of the history so far.  The methods themselves are programs in
    a state-and-exception monad over the instance fields and the trace. *)

From Stdlib Require Import ZArith QArith String Ascii List Bool Lia.
Import ListNotations.
Open Scope Z_scope.

(** ** The fragment of JavaScript the controller relies on *)

Module JS.

(** Numbers: finite values are kept as exact rationals. *)
Inductive num : Type :=
| Fin (q : Q)
| NaN
| PosInf
| NegInf.

(** Primitive values, as they can be passed for [volume]. *)
Inductive value : Type :=
| VUndefined
| VNull
| VBool (b : bool)
| VNum (n : num)
| VStr (s : string).

Definition isNaN (n : num) : bool :=
  match n with NaN => true | _ => false end.

(** [StrWhiteSpaceChar] among the code units 0..255. *)
Definition is_space (c : ascii) : bool :=
  let n := nat_of_ascii c in
  (Nat.eqb n 9 || Nat.eqb n 10 || Nat.eqb n 11 || Nat.eqb n 12
   || Nat.eqb n 13 || Nat.eqb n 32 || Nat.eqb n 160)%bool.

Fixpoint trim_start (s : string) : string :=
  match s with
  | String c r => if is_space c then trim_start r else s
  | EmptyString => EmptyString
  end.

Fixpoint rev_string (acc s : string) : string :=
  match s with
  | String c r => rev_string (String c acc) r
  | EmptyString => acc
  end.

Definition trim (s : string) : string :=
  rev_string EmptyString
    (trim_start (rev_string EmptyString (trim_start s))).

Definition digit_val (base : Z) (c : ascii) : option Z :=
  let n := Z.of_nat (nat_of_ascii c) in
  let d :=
    if (48 <=? n) && (n <=? 57) then Some (n - 48)
    else if (97 <=? n) && (n <=? 102) then Some (n - 87)
    else if (65 <=? n) && (n <=? 70) then Some (n - 55)
    else None in
  match d with
  | Some v => if v <? base then Some v else None
  | None => None
  end.

(** Reads the longest run of digits: value so far, number of digits read,
    and the rest of the input. *)
Fixpoint digits (base : Z) (acc : Z) (count : nat) (s : string)
  : Z * nat * string :=
  match s with
  | String c r =>
      match digit_val base c with
      | Some d => digits base (base * acc + d) (S count) r
      | None => (acc, count, s)
      end
  | EmptyString => (acc, count, s)
  end.

Definition pow10 (e : Z) : Q :=
  if e <? 0 then 1 # Pos.pow 10 (Z.to_pos (- e))
  else inject_Z (10 ^ e).

(** [ExponentPart]: [e] or [E], an optional sign, at least one digit.
    Gives the exponent and the rest when the part is there. *)
Definition exponent_part (s : string) : option (Z * string) :=
  match s with
  | String c r =>
      if (Ascii.eqb c "e" || Ascii.eqb c "E")%bool then
        let '(sign, r') :=
          match r with
          | String "+" t => (1, t)
          | String "-" t => (-1, t)
          | _ => (1, r)
          end in
        match digits 10 0 O r' with
        | (_, O, _) => None
        | (e, _, rest) => Some (sign * e, rest)
        end
      else None
  | EmptyString => None
  end.

Definition with_exponent (m : Q) (s : string) : num * string :=
  match exponent_part s with
  | Some (e, rest) => (Fin (Qred (m * pow10 e)), rest)
  | None => (Fin (Qred m), s)
  end.

(** The longest prefix that is a [StrUnsignedDecimalLiteral]:
    [Infinity], [digits . digits? exp?], [. digits exp?], [digits exp?]. *)
Definition unsigned_decimal (s : string) : option (num * string) :=
  if prefix "Infinity" s then
    Some (PosInf, substring 8 (String.length s - 8) s)
  else
    match digits 10 0 O s with
    | (_, O, String "." r) =>
        match digits 10 0 O r with
        | (_, O, _) => None
        | (f, k, rest) =>
            Some (with_exponent (f # Pos.pow 10 (Pos.of_nat k)) rest)
        end
    | (_, O, _) => None
    | (i, _, String "." r) =>
        let '(f, k, rest) := digits 10 0 O r in
        Some (with_exponent
                (inject_Z i + (f # Pos.pow 10 (Pos.of_nat k))) rest)
    | (i, _, rest) => Some (with_exponent (inject_Z i) rest)
    end.

Definition negate (n : num) : num :=
  match n with
  | Fin q => Fin (Qred (- q))
  | NaN => NaN
  | PosInf => NegInf
  | NegInf => PosInf
  end.

(** The longest prefix that is a [StrDecimalLiteral] (optional sign). *)
Definition decimal (s : string) : option (num * string) :=
  match s with
  | String "+" r => unsigned_decimal r
  | String "-" r =>
      match unsigned_decimal r with
      | Some (n, rest) => Some (negate n, rest)
      | None => None
      end
  | _ => unsigned_decimal s
  end.

(** [parseFloat] on a string: leading white space is skipped and the
    longest decimal prefix is read; [NaN] when there is none. *)
Definition parseFloat_string (s : string) : num :=
  match decimal (trim_start s) with
  | Some (n, _) => n
  | None => NaN
  end.

(** [parseFloat(v)] is [parseFloat(ToString(v))].  The strings
    ["undefined"], ["null"], ["true"], ["false"] and ["NaN"] have no
    decimal prefix; the string of any other number reads back as that
    number. *)
Definition parseFloat (v : value) : num :=
  match v with
  | VUndefined | VNull | VBool _ => NaN
  | VNum n => n
  | VStr s => parseFloat_string s
  end.

Definition radix_literal (s : string) : option num :=
  let lit base r :=
    match digits base 0 O r with
    | (_, O, _) => None
    | (n, _, EmptyString) => Some (Fin (inject_Z n))
    | _ => None
    end in
  match s with
  | String "0" (String c r) =>
      if (Ascii.eqb c "x" || Ascii.eqb c "X")%bool then lit 16 r
      else if (Ascii.eqb c "o" || Ascii.eqb c "O")%bool then lit 8 r
      else if (Ascii.eqb c "b" || Ascii.eqb c "B")%bool then lit 2 r
      else None
  | _ => None
  end.

(** [StringToNumber]: the whole trimmed string must be a numeric literal;
    the empty string is 0. *)
Definition StringToNumber (s : string) : num :=
  let t := trim s in
  match t with
  | EmptyString => Fin 0
  | _ =>
      match radix_literal t with
      | Some n => n
      | None =>
          match decimal t with
          | Some (n, EmptyString) => n
          | _ => NaN
          end
      end
  end.

Definition ToNumber (v : value) : num :=
  match v with
  | VUndefined => NaN
  | VNull => Fin 0
  | VBool true => Fin 1
  | VBool false => Fin 0
  | VNum n => n
  | VStr s => StringToNumber s
  end.

(** [v / 100]. *)
Definition div100 (v : value) : num :=
  match ToNumber v with
  | Fin q => Fin (Qred (q / 100))
  | n => n
  end.

(** Truthiness of a string-or-undefined argument. *)
Definition truthy_string (s : option string) : bool :=
  match s with
  | Some (String _ _) => true
  | _ => false
  end.

End JS.

(** ** Collaborators: what the controller calls and what it is told *)

(** An exception value: a property read through [undefined], or a failure
    raised (or a promise rejected) by a collaborator. *)
Inductive exn : Type :=
| TypeError
| CollaboratorError.

(** A template literal: fixed text and interpolated values. *)
Inductive chunk : Type :=
| Text (s : string)
| Interp (v : JS.value).

Definition message : Type := list chunk.

(** The [error] field of an error payload. *)
Inductive detail : Type :=
| Caught (e : exn)
| Info (m : message).

(** Modelled from the spec: [EventHandler] (./EventHandler is not part of the
    sources).  The sink receives tagged payloads; a call to one of its
    methods is recorded with its arguments and returns normally. *)
Inductive event : Type :=
| emitInit
| emitLoadFile (m : message)
| emitLoadPatch (m : message)
| emitPlay (time : Q)
| emitPause (time : Q)
| emitResume (time : Q)
| emitStop
| emitEnd (time : Q)
| emitError (m : message) (error : option detail)
| emitCustom (event : option string) (m : option string)
| sinkSetLogger (eventLogger : option Z) (logging : bool).

(** An argument of an engine call: a number, [undefined] or a boolean. *)
Inductive arg : Type :=
| ANum (z : Z)
| AUndef
| ABool (b : bool).

Definition arg_of (h : option Z) : arg :=
  match h with
  | Some z => ANum z
  | None => AUndef
  end.

(** Every call that leaves the controller. *)
Inductive action : Type :=
(* LibTiMidity *)
| Init (isFirstInstance : bool)
| Malloc (size : Z)
| Free (ptr : option Z)
| WriteArrayToMemory (data : list Z) (ptr : Z)
| Call (name : string) (args : list arg)
| LoadPatchFromUrl (patchUrl : string) (patch : string)
(* network *)
| Fetch (url : option string)
| ResponseArrayBuffer
(* host audio output *)
| NewAudioContext
| ContextClose
| ContextSuspend
| ContextResume
| CreateScriptProcessor (bufferSize inputs outputs : Z)
| CreateGain
| GainConnect
| SourceConnect
| SourceDisconnect
(* event sink *)
| Sink (e : event).

Module Host.

Record AudioContext : Type := {
  sampleRate : Z;
  currentTime : Q
}.

Record ScriptProcessorNode : Type := { bufferSize : Z }.

Record GainNode : Type := { gain : JS.num }.

End Host.

(** What the collaborators answer, as a function of the calls made so far.
    [None] (or [false]) means the call throws or its promise rejects. *)
Record environment : Type := {
  engine_number : list action -> action -> option Z;
  engine_string : list action -> action -> option string;
  succeeds : list action -> action -> bool;
  host_context : list action -> option Host.AudioContext;
  fetch_status : list action -> action -> option Z;
  fetch_body : list action -> action -> option (list Z);
  (* the bytes of the engine heap *)
  memory : list action -> Z -> Z;
  (* the global [name] that [getSource] refers to *)
  window_name : option string
}.

(** ** The instance *)

Record player : Type := {
  context : option Host.AudioContext;
  sampleRate : option Z;
  source : option Host.ScriptProcessorNode;
  gainNode : option Host.GainNode;
  midiFileArray : option (list Z);
  midiFileBuffer : option Z;
  stream : option Z;
  song : option Z;
  waveBuffer : option Z;
  startTime : Q;
  volume : JS.value;
  patchUrl : string;
  eventLogger : option Z;
  logging : bool;
  isFirstInstance : bool
}.

Record world : Type := {
  this : player;
  trace : list action
}.

Definition set_context v (p : player) : player :=
  {| context := v; sampleRate := sampleRate p; source := source p;
     gainNode := gainNode p; midiFileArray := midiFileArray p;
     midiFileBuffer := midiFileBuffer p; stream := stream p; song := song p;
     waveBuffer := waveBuffer p; startTime := startTime p;
     volume := volume p; patchUrl := patchUrl p;
     eventLogger := eventLogger p; logging := logging p;
     isFirstInstance := isFirstInstance p |}.

Definition set_sampleRate v (p : player) : player :=
  {| context := context p; sampleRate := v; source := source p;
     gainNode := gainNode p; midiFileArray := midiFileArray p;
     midiFileBuffer := midiFileBuffer p; stream := stream p; song := song p;
     waveBuffer := waveBuffer p; startTime := startTime p;
     volume := volume p; patchUrl := patchUrl p;
     eventLogger := eventLogger p; logging := logging p;
     isFirstInstance := isFirstInstance p |}.

Definition set_source v (p : player) : player :=
  {| context := context p; sampleRate := sampleRate p; source := v;
     gainNode := gainNode p; midiFileArray := midiFileArray p;
     midiFileBuffer := midiFileBuffer p; stream := stream p; song := song p;
     waveBuffer := waveBuffer p; startTime := startTime p;
     volume := volume p; patchUrl := patchUrl p;
     eventLogger := eventLogger p; logging := logging p;
     isFirstInstance := isFirstInstance p |}.

Definition set_gainNode v (p : player) : player :=
  {| context := context p; sampleRate := sampleRate p; source := source p;
     gainNode := v; midiFileArray := midiFileArray p;
     midiFileBuffer := midiFileBuffer p; stream := stream p; song := song p;
     waveBuffer := waveBuffer p; startTime := startTime p;
     volume := volume p; patchUrl := patchUrl p;
     eventLogger := eventLogger p; logging := logging p;
     isFirstInstance := isFirstInstance p |}.

Definition set_midiFileArray v (p : player) : player :=
  {| context := context p; sampleRate := sampleRate p; source := source p;
     gainNode := gainNode p; midiFileArray := v;
     midiFileBuffer := midiFileBuffer p; stream := stream p; song := song p;
     waveBuffer := waveBuffer p; startTime := startTime p;
     volume := volume p; patchUrl := patchUrl p;
     eventLogger := eventLogger p; logging := logging p;
     isFirstInstance := isFirstInstance p |}.

Definition set_midiFileBuffer v (p : player) : player :=
  {| context := context p; sampleRate := sampleRate p; source := source p;
     gainNode := gainNode p; midiFileArray := midiFileArray p;
     midiFileBuffer := v; stream := stream p; song := song p;
     waveBuffer := waveBuffer p; startTime := startTime p;
     volume := volume p; patchUrl := patchUrl p;
     eventLogger := eventLogger p; logging := logging p;
     isFirstInstance := isFirstInstance p |}.

Definition set_stream v (p : player) : player :=
  {| context := context p; sampleRate := sampleRate p; source := source p;
     gainNode := gainNode p; midiFileArray := midiFileArray p;
     midiFileBuffer := midiFileBuffer p; stream := v; song := song p;
     waveBuffer := waveBuffer p; startTime := startTime p;
     volume := volume p; patchUrl := patchUrl p;
     eventLogger := eventLogger p; logging := logging p;
     isFirstInstance := isFirstInstance p |}.

Definition set_song v (p : player) : player :=
  {| context := context p; sampleRate := sampleRate p; source := source p;
     gainNode := gainNode p; midiFileArray := midiFileArray p;
     midiFileBuffer := midiFileBuffer p; stream := stream p; song := v;
     waveBuffer := waveBuffer p; startTime := startTime p;
     volume := volume p; patchUrl := patchUrl p;
     eventLogger := eventLogger p; logging := logging p;
     isFirstInstance := isFirstInstance p |}.

Definition set_waveBuffer v (p : player) : player :=
  {| context := context p; sampleRate := sampleRate p; source := source p;
     gainNode := gainNode p; midiFileArray := midiFileArray p;
     midiFileBuffer := midiFileBuffer p; stream := stream p; song := song p;
     waveBuffer := v; startTime := startTime p;
     volume := volume p; patchUrl := patchUrl p;
     eventLogger := eventLogger p; logging := logging p;
     isFirstInstance := isFirstInstance p |}.

Definition set_startTime v (p : player) : player :=
  {| context := context p; sampleRate := sampleRate p; source := source p;
     gainNode := gainNode p; midiFileArray := midiFileArray p;
     midiFileBuffer := midiFileBuffer p; stream := stream p; song := song p;
     waveBuffer := waveBuffer p; startTime := v;
     volume := volume p; patchUrl := patchUrl p;
     eventLogger := eventLogger p; logging := logging p;
     isFirstInstance := isFirstInstance p |}.

Definition set_volume v (p : player) : player :=
  {| context := context p; sampleRate := sampleRate p; source := source p;
     gainNode := gainNode p; midiFileArray := midiFileArray p;
     midiFileBuffer := midiFileBuffer p; stream := stream p; song := song p;
     waveBuffer := waveBuffer p; startTime := startTime p;
     volume := v; patchUrl := patchUrl p;
     eventLogger := eventLogger p; logging := logging p;
     isFirstInstance := isFirstInstance p |}.

Definition set_logger (f : option Z) (l : bool) (p : player) : player :=
  {| context := context p; sampleRate := sampleRate p; source := source p;
     gainNode := gainNode p; midiFileArray := midiFileArray p;
     midiFileBuffer := midiFileBuffer p; stream := stream p; song := song p;
     waveBuffer := waveBuffer p; startTime := startTime p;
     volume := volume p; patchUrl := patchUrl p;
     eventLogger := f; logging := l;
     isFirstInstance := isFirstInstance p |}.

(** ** Programs over the instance and the trace *)

Inductive result (A : Type) : Type :=
| Ok (a : A)
| Throw (e : exn).

Arguments Ok {A} a.
Arguments Throw {A} e.

Definition M (A : Type) : Type := world -> result A * world.

Definition ret {A : Type} (a : A) : M A := fun w => (Ok a, w).

Definition bind {A B : Type} (c : M A) (k : A -> M B) : M B :=
  fun w =>
    match c w with
    | (Ok a, w') => k a w'
    | (Throw e, w') => (Throw e, w')
    end.

Definition throw {A : Type} (e : exn) : M A := fun w => (Throw e, w).

(** [try { c } catch (error) { h error }]: the fields written and the calls
    made before the exception stay. *)
Definition try {A : Type} (c : M A) (h : exn -> M A) : M A :=
  fun w =>
    match c w with
    | (Ok a, w') => (Ok a, w')
    | (Throw e, w') => h e w'
    end.

Declare Scope js_scope.
Delimit Scope js_scope with js.
Notation "x <- c ;; k" := (bind c (fun x => k))
  (at level 100, c at next level, right associativity) : js_scope.
Notation "c ;; k" := (bind c (fun _ => k))
  (at level 100, right associativity) : js_scope.
Open Scope js_scope.

Definition gets {A : Type} (f : player -> A) : M A :=
  fun w => (Ok (f (this w)), w).

Definition modify (f : player -> player) : M unit :=
  fun w => (Ok tt, {| this := f (this w); trace := trace w |}).

Definition log (a : action) (w : world) : world :=
  {| this := this w; trace := trace w ++ [a] |}.

(** A property read or a method call through a field that may be
    [undefined]. *)
Definition defined {A : Type} (f : player -> option A) : M A :=
  fun w =>
    match f (this w) with
    | Some a => (Ok a, w)
    | None => (Throw TypeError, w)
    end.

Definition emit (e : event) : M unit :=
  fun w => (Ok tt, log (Sink e) w).

(** ** The controller *)

(** Modelled from the spec: the constant [MAX_I16] of ./constants, which is
    not part of the sources: "the maximum representable 16-bit magnitude
    (32767)". *)
Definition MAX_I16 : Z := 32767.

(** Modelled from the spec: [LibTiMidity.getValue(ptr, 'i16')], "read a
    little-endian signed 16-bit value" at a byte address of the engine
    heap. *)
Definition getValue_i16 (heap : Z -> Z) (ptr : Z) : Z :=
  let u := (heap ptr) mod 256 + 256 * ((heap (ptr + 1)) mod 256) in
  if u <? 32768 then u else u - 65536.

(** Writing a typed array at an index: nothing happens out of range. *)
Fixpoint store {A : Type} (l : list A) (i : nat) (v : A) : list A :=
  match l, i with
  | [], _ => []
  | _ :: t, O => v :: t
  | h :: t, S j => h :: store t j v
  end.

Section Controller.

Variable env : environment.

(** The constants of ./constants whose values the sources do not give. *)
Variable MIDI_AUDIO_BUFFER_SIZE : Z.
Variable MIDI_AUDIO_S16LSB : Z.

(** *** Calls to the collaborators *)

Definition call_number (a : action) : M Z :=
  fun w =>
    match engine_number env (trace w) a with
    | Some z => (Ok z, log a w)
    | None => (Throw CollaboratorError, log a w)
    end.

Definition call_string (a : action) : M string :=
  fun w =>
    match engine_string env (trace w) a with
    | Some s => (Ok s, log a w)
    | None => (Throw CollaboratorError, log a w)
    end.

Definition call_void (a : action) : M unit :=
  fun w =>
    if succeeds env (trace w) a then (Ok tt, log a w)
    else (Throw CollaboratorError, log a w).

Definition construct_context : M Host.AudioContext :=
  fun w =>
    match host_context env (trace w) with
    | Some c => (Ok c, log NewAudioContext w)
    | None => (Throw CollaboratorError, log NewAudioContext w)
    end.

Definition call_fetch (url : option string) : M Z :=
  fun w =>
    match fetch_status env (trace w) (Fetch url) with
    | Some status => (Ok status, log (Fetch url) w)
    | None => (Throw CollaboratorError, log (Fetch url) w)
    end.

Definition call_arrayBuffer : M (list Z) :=
  fun w =>
    match fetch_body env (trace w) ResponseArrayBuffer with
    | Some data => (Ok data, log ResponseArrayBuffer w)
    | None => (Throw CollaboratorError, log ResponseArrayBuffer w)
    end.

Definition heap : M (Z -> Z) :=
  fun w => (Ok (memory env (trace w)), w).

(** *** constructor *)

Definition blank : player :=
  {| context := None; sampleRate := None; source := None;
     gainNode := None; midiFileArray := None; midiFileBuffer := None;
     stream := None; song := None; waveBuffer := None; startTime := 0;
     volume := JS.VUndefined; patchUrl := EmptyString;
     eventLogger := None; logging := false; isFirstInstance := false |}.

(** The event handler is taken as built, so the first [try] of the
    constructor is passed; the module-level flag [isFirstInstance] is an
    argument. *)
Definition constructor (eventLogger0 : option Z) (logging0 : bool)
           (patchUrl0 : string) (volume0 : JS.value) (first : bool)
  : M unit :=
  try
    (modify (fun p =>
       {| context := context p; sampleRate := sampleRate p;
          source := source p; gainNode := gainNode p;
          midiFileArray := midiFileArray p;
          midiFileBuffer := midiFileBuffer p; stream := stream p;
          song := song p; waveBuffer := waveBuffer p; startTime := 0;
          volume := volume0; patchUrl := patchUrl0;
          eventLogger := eventLogger0; logging := logging0;
          isFirstInstance := isFirstInstance p |}) ;;
     call_void (Init first) ;;
     modify (fun p =>
       {| context := context p; sampleRate := sampleRate p;
          source := source p; gainNode := gainNode p;
          midiFileArray := midiFileArray p;
          midiFileBuffer := midiFileBuffer p; stream := stream p;
          song := song p; waveBuffer := waveBuffer p;
          startTime := startTime p; volume := volume p;
          patchUrl := patchUrl p; eventLogger := eventLogger p;
          logging := logging p; isFirstInstance := first |}) ;;
     emit emitInit)
    (fun error =>
       emit (emitError
               [Text "Could not initialize instance of MidiPlayer."]
               (Some (Caught error)))).

(** *** formatMidiName *)

Definition formatMidiName (name : option string) : message :=
  match name with
  | Some (String c r) => [Text " '"; Interp (JS.VStr (String c r)); Text "'"]
  | _ => []
  end.

(** *** initAudioContext *)

Definition initAudioContext (audioContext : option Host.AudioContext)
  : M bool :=
  try
    (c <- match audioContext with
          | Some c => ret c
          | None => construct_context
          end ;;
     modify (set_context (Some c)) ;;
     modify (set_sampleRate (Some (Host.sampleRate c))) ;;
     ret true)
    (fun error =>
       emit (emitError [Text "Could not set AudioContext."]
               (Some (Caught error))) ;;
       ret false).

(** *** isSourceValid *)

Definition isSourceValid (arrayBuffer : option (list Z))
           (url : option string) : M bool :=
  match arrayBuffer, JS.truthy_string url with
  | None, false =>
      emit (emitError
              [Text "Unknown source. URL or array buffer can't be both undefined to start playback."]
              None) ;;
      ret false
  | Some _, true =>
      emit (emitError
              [Text "Ambiguous source. MIDI data must originate either from a URL or an array buffer to start playback. Not both."]
              None) ;;
      ret false
  | _, _ => ret true
  end.

(** *** getSource

    The result is [None] for [false] and [null].  The promise of
    [response.arrayBuffer()] is returned from inside the [try] without
    being awaited there, so its rejection is not caught. *)

Definition could_not_retrieve : message :=
  [Text "Could not retrieve MIDI"] ++ formatMidiName (window_name env)
    ++ [Text "."].

Definition getSource (arrayBuffer : option (list Z)) (url : option string)
  : M (option (list Z)) :=
  match arrayBuffer with
  | Some data => ret (Some data)
  | None =>
      pending <-
        try
          (status <- call_fetch url ;;
           if negb (status =? 200) then
             emit (emitError could_not_retrieve
                     (Some (Info [Text "Status code: ";
                                  Interp (JS.VNum (JS.Fin (inject_Z status)));
                                  Text "."]))) ;;
             ret false
           else ret true)
          (fun error =>
             emit (emitError could_not_retrieve (Some (Caught error))) ;;
             ret false) ;;
      if pending : bool then
        data <- call_arrayBuffer ;;
        ret (Some data)
      else ret None
  end.

(** *** handleStream *)

Definition handleStream : M Z :=
  array <- defined midiFileArray ;;
  buffer <- call_number (Malloc (Z.of_nat (length array))) ;;
  modify (set_midiFileBuffer (Some buffer)) ;;
  call_void (WriteArrayToMemory array buffer) ;;
  call_number (Call "mid_init" []) ;;
  s <- call_number
         (Call "mid_istream_open_mem"
            [ANum buffer; ANum (Z.of_nat (length array)); ABool false]) ;;
  modify (set_stream (Some s)) ;;
  rate <- gets sampleRate ;;
  options <- call_number
               (Call "mid_create_options"
                  [arg_of rate; ANum MIDI_AUDIO_S16LSB; ANum 1;
                   ANum (MIDI_AUDIO_BUFFER_SIZE * 2)]) ;;
  sg <- call_number (Call "mid_song_load" [ANum s; ANum options]) ;;
  modify (set_song (Some sg)) ;;
  call_number (Call "mid_istream_close" [ANum s]) ;;
  ret options.

(** *** getInstrumentPatches

    The result is [false] after a failed patch and [undefined]
    otherwise. *)

Definition could_not_retrieve_patch (missingPatch : string) (i : Z)
  : message :=
  [Text "Could not retrieve missing instrument patch "]
    ++ match missingPatch with
       | String _ _ => [Text "'"; Interp (JS.VStr missingPatch); Text "'"]
       | EmptyString =>
           [Text "#"; Interp (JS.VNum (JS.Fin (inject_Z i)))]
       end
    ++ [Text "."].

(** The loop [for (let i = ...; i < missingPatchCount; i++)], with the
    number of indices left as its measure. *)
Fixpoint patch_loop (left : nat) (i : Z) : M JS.value :=
  match left with
  | O => ret JS.VUndefined
  | S left' =>
      sg <- gets song ;;
      missingPatch <-
        call_string (Call "mid_song_get_missing_instrument"
                       [arg_of sg; ANum i]) ;;
      url <- gets patchUrl ;;
      fetched <-
        try
          (call_void (LoadPatchFromUrl url missingPatch) ;; ret true)
          (fun error =>
             emit (emitError (could_not_retrieve_patch missingPatch i)
                     (Some (Caught error))) ;;
             ret false) ;;
      if fetched : bool then patch_loop left' (i + 1)
      else ret (JS.VBool false)
  end.

Definition getInstrumentPatches : M JS.value :=
  sg <- gets song ;;
  missingPatchCount <-
    call_number (Call "mid_song_get_num_missing_instruments" [arg_of sg]) ;;
  if 0 <? missingPatchCount then
    emit (emitLoadPatch
            [Text "Loading ";
             Interp (JS.VNum (JS.Fin (inject_Z missingPatchCount)));
             Text " instrument patches..."]) ;;
    patch_loop (Z.to_nat missingPatchCount) 0
  else ret JS.VUndefined.

(** *** loadSong *)

Definition loadSong (arrayBuffer : list Z) : M bool :=
  modify (set_midiFileArray (Some arrayBuffer)) ;;
  try
    (options <- handleStream ;;
     getInstrumentPatches ;;
     buffer <- gets midiFileBuffer ;;
     array <- defined midiFileArray ;;
     s <- call_number
            (Call "mid_istream_open_mem"
               [arg_of buffer; ANum (Z.of_nat (length array));
                ABool false]) ;;
     modify (set_stream (Some s)) ;;
     sg <- call_number (Call "mid_song_load" [ANum s; ANum options]) ;;
     modify (set_song (Some sg)) ;;
     call_number (Call "mid_istream_close" [ANum s]) ;;
     ret true)
    (fun error =>
       emit (emitError [Text "Could not load song."]
               (Some (Caught error))) ;;
       ret false).

(** *** createGainNode, connectSource, initPlayback *)

Definition createGainNode : M unit :=
  defined context ;;
  call_void CreateGain ;;
  v <- gets volume ;;
  modify (set_gainNode (Some {| Host.gain := JS.div100 v |})) ;;
  call_void GainConnect ;;
  defined source ;;
  call_void SourceConnect.

Definition connectSource : M unit :=
  defined context ;;
  call_void (CreateScriptProcessor MIDI_AUDIO_BUFFER_SIZE 0 1) ;;
  modify (set_source
            (Some {| Host.bufferSize := MIDI_AUDIO_BUFFER_SIZE |})) ;;
  createGainNode.

(** Every path of [initPlayback] returns [undefined]. *)
Definition initPlayback : M JS.value :=
  sg <- gets song ;;
  call_void (Call "mid_song_start" [arg_of sg]) ;;
  started <-
    try
      (connectSource ;;
       buffer <- call_number (Malloc (MIDI_AUDIO_BUFFER_SIZE * 2)) ;;
       modify (set_waveBuffer (Some buffer)) ;;
       c <- defined context ;;
       modify (set_startTime (Host.currentTime c)) ;;
       ret true)
      (fun error =>
         emit (emitError [Text "Could not initialize playback."]
                 (Some (Caught error))) ;;
         ret false) ;;
  if started : bool then
    emit (emitPlay 0) ;;
    ret JS.VUndefined
  else ret JS.VUndefined.

(** *** freeMemory, disconnectSource, stop *)

Definition freeMemory : M unit :=
  wb <- gets waveBuffer ;;
  call_void (Free wb) ;;
  mb <- gets midiFileBuffer ;;
  call_void (Free mb) ;;
  sg <- gets song ;;
  call_void (Call "mid_song_free" [arg_of sg]).

Definition disconnectSource : M unit :=
  defined source ;;
  call_void SourceDisconnect ;;
  modify (set_source None).

Definition stop : M bool :=
  try
    (src <- gets source ;;
     match src with
     | Some _ =>
         defined context ;;
         call_void ContextClose ;;
         disconnectSource ;;
         freeMemory ;;
         call_void (Call "mid_exit" []) ;;
         modify (set_song (Some 0))
     | None => ret tt
     end ;;
     modify (set_startTime 0) ;;
     emit emitStop ;;
     ret true)
    (fun error =>
       emit (emitError [Text "Could not stop playback."]
               (Some (Caught error))) ;;
       ret false).

(** *** handleOutput

    The argument and the result are the samples of channel 0 of
    [outputBuffer]. *)

Definition sample (mem : Z -> Z) (wb : option Z) (i : Z) : Q :=
  let ptr := match wb with
             | Some b => b + 2 * i
             | None => 0 (* [undefined + 2 * i] is [NaN] *)
             end in
  inject_Z (getValue_i16 mem ptr) / inject_Z MAX_I16.

(** The loop [for (let i = ...; i < MIDI_AUDIO_BUFFER_SIZE; i++)], with
    the number of slots left as its measure. *)
Fixpoint fill (mem : Z -> Z) (wb : option Z) (readWaveBytes : Z)
         (left : nat) (i : Z) (out : list Q) : list Q :=
  match left with
  | O => out
  | S left' =>
      fill mem wb readWaveBytes left' (i + 1)
        (store out (Z.to_nat i)
           (if i <? readWaveBytes then sample mem wb i else 0%Q))
  end.

Definition handleOutput (outputBuffer : list Q) : M (list Q) :=
  try
    (c <- defined context ;;
     t0 <- gets startTime ;;
     let time := (Host.currentTime c - t0)%Q in
     emit (emitPlay time) ;;
     sg <- gets song ;;
     wb <- gets waveBuffer ;;
     readWaveBytes <-
       call_number
         (Call "mid_song_read_wave"
            [arg_of sg; arg_of wb; ANum (MIDI_AUDIO_BUFFER_SIZE * 2);
             ABool false]) ;;
     if readWaveBytes =? 0 then
       stop ;;
       emit (emitEnd time) ;;
       ret outputBuffer
     else
       mem <- heap ;;
       ret (fill mem wb readWaveBytes (Z.to_nat MIDI_AUDIO_BUFFER_SIZE) 0
              outputBuffer))
    (fun error =>
       emit (emitError [Text "Could not process audio."]
               (Some (Caught error))) ;;
       ret outputBuffer).

(** *** pause, resume *)

Definition pause : M bool :=
  try
    (c <- gets context ;;
     time <- match c with
             | Some _ =>
                 call_void ContextSuspend ;;
                 c' <- defined context ;;
                 t0 <- gets startTime ;;
                 ret (Host.currentTime c' - t0)%Q
             | None => ret 0%Q
             end ;;
     emit (emitPause time) ;;
     ret true)
    (fun error =>
       emit (emitError [Text "Could not pause playback."]
               (Some (Caught error))) ;;
       ret false).

Definition resume : M bool :=
  try
    (c <- gets context ;;
     time <- match c with
             | Some _ =>
                 call_void ContextResume ;;
                 c' <- defined context ;;
                 t0 <- gets startTime ;;
                 ret (Host.currentTime c' - t0)%Q
             | None => ret 0%Q
             end ;;
     emit (emitResume time) ;;
     ret true)
    (fun error =>
       emit (emitError [Text "Could not resume playback."]
               (Some (Caught error))) ;;
       ret false).

(** *** getVolume, setVolume *)

Definition getVolume : M JS.value := gets volume.

Definition setVolume (v : JS.value) : M unit :=
  if JS.isNaN (JS.parseFloat v) then
    emit (emitError
            [Text "Volume must be parsable into a number. Got '";
             Interp v; Text "' instead."]
            None)
  else
    modify (set_volume v) ;;
    defined gainNode ;;
    modify (set_gainNode (Some {| Host.gain := JS.div100 v |})).

(** *** emitEvent, setLogger *)

Definition emitEvent (event : option string) (m : option string) : M unit :=
  emit (emitCustom event m).

Definition setLogger (eventLogger0 : option Z) (logging0 : bool) : M unit :=
  modify (set_logger eventLogger0 logging0) ;;
  emit (sinkSetLogger eventLogger0 logging0).

(** *** play, preload *)

Record source_input : Type := {
  arrayBuffer : option (list Z);
  url : option string;
  name : option string
}.

(** The result is [false], or [undefined] (what [initPlayback] returns,
    and what falls through when the song was not loaded). *)
Definition play (input : source_input)
           (audioContext : option Host.AudioContext) : M JS.value :=
  stop ;;
  initialized <- initAudioContext audioContext ;;
  if negb initialized then ret (JS.VBool false) else
  valid <- isSourceValid (arrayBuffer input) (url input) ;;
  if negb valid then ret (JS.VBool false) else
  emit (emitLoadFile
          ([Text "Loading"] ++ formatMidiName (name input)
             ++ [Text "..."])) ;;
  data <- getSource (arrayBuffer input) (url input) ;;
  match data with
  | None => ret (JS.VBool false)
  | Some bytes =>
      loaded <- loadSong bytes ;;
      if loaded : bool then initPlayback else ret JS.VUndefined
  end.

Fixpoint preload (items : list source_input)
         (audioContext : option Host.AudioContext) : M JS.value :=
  match items with
  | [] => ret JS.VUndefined
  | item :: rest =>
      initialized <- initAudioContext audioContext ;;
      if negb initialized then ret (JS.VBool false) else
      valid <- isSourceValid (arrayBuffer item) (url item) ;;
      if negb valid then ret (JS.VBool false) else
      data <- getSource (arrayBuffer item) (url item) ;;
      match data with
      | None => ret (JS.VBool false)
      | Some bytes =>
          modify (set_midiFileArray (Some bytes)) ;;
          handleStream ;;
          getInstrumentPatches ;;
          preload rest audioContext
      end
  end.

End Controller.

(** ** Reading a trace *)

(** The calls an operation added to the history it started from. *)
Definition added (w w' : world) : list action :=
  skipn (length (trace w)) (trace w').

Definition is_engine_call (a : action) : bool :=
  match a with
  | Init _ | Malloc _ | Free _ | WriteArrayToMemory _ _ | Call _ _
  | LoadPatchFromUrl _ _ => true
  | _ => false
  end.

Definition is_network_call (a : action) : bool :=
  match a with
  | Fetch _ | ResponseArrayBuffer | LoadPatchFromUrl _ _ => true
  | _ => false
  end.

Definition is_error_event (a : action) : bool :=
  match a with
  | Sink (emitError _ _) => true
  | _ => false
  end.


Definition is_song_start (a : action) : bool :=
  match a with
  | Call f _ => String.eqb f "mid_song_start"
  | _ => false
  end.

(** The calls of the open-stream, load-song, close-stream cycle. *)
Definition is_cycle_call (a : action) : bool :=
  match a with
  | Call f _ =>
      (String.eqb f "mid_istream_open_mem" || String.eqb f "mid_song_load"
       || String.eqb f "mid_istream_close")%bool
  | _ => false
  end.

(** The patches whose fetch was attempted, in the order of the attempts. *)
Fixpoint patch_attempts (tr : list action) : list string :=
  match tr with
  | [] => []
  | LoadPatchFromUrl _ p :: r => p :: patch_attempts r
  | _ :: r => patch_attempts r
  end.

Definition count (f : action -> bool) (tr : list action) : nat :=
  length (filter f tr).

(** The read of wave data made by the callback entered in [w]. *)
Definition read_wave (size : Z) (w : world) : action :=
  Call "mid_song_read_wave"
    [arg_of (song (this w)); arg_of (waveBuffer (this w)); ANum (size * 2);
     ABool false].

(** The host clock minus the recorded start time. *)
Definition elapsed (c : Host.AudioContext) (w : world) : Q :=
  (Host.currentTime c - startTime (this w))%Q.

(** The number of bytes the engine reports for that read, which comes
    after the play event of the callback. *)
Definition produced (env : environment) (size : Z) (w : world) : option Z :=
  match context (this w) with
  | Some c =>
      engine_number env (trace w ++ [Sink (emitPlay (elapsed c w))])
        (read_wave size w)
  | None => None
  end.

(** The first cycle of a load, from the allocation of the MIDI bytes on. *)
Definition first_cycle (data : list Z) (rate : option Z)
           (fmt size buffer s options : Z) : list action :=
  let len := Z.of_nat (length data) in
  [Malloc len;
   WriteArrayToMemory data buffer;
   Call "mid_init" [];
   Call "mid_istream_open_mem" [ANum buffer; ANum len; ABool false];
   Call "mid_create_options" [arg_of rate; ANum fmt; ANum 1; ANum (size * 2)];
   Call "mid_song_load" [ANum s; ANum options];
   Call "mid_istream_close" [ANum s]].

(** The second cycle: the reload over the same buffer. *)
Definition second_cycle (data : list Z) (buffer s options : Z)
  : list action :=
  [Call "mid_istream_open_mem"
     [ANum buffer; ANum (Z.of_nat (length data)); ABool false];
   Call "mid_song_load" [ANum s; ANum options];
   Call "mid_istream_close" [ANum s]].

(** The volume test of [setVolume]. *)
Definition numeric (v : JS.value) : bool :=
  negb (JS.isNaN (JS.parseFloat v)).

Definition unknown_source : event :=
  emitError
    [Text "Unknown source. URL or array buffer can't be both undefined to start playback."]
    None.

Definition ambiguous_source : event :=
  emitError
    [Text "Ambiguous source. MIDI data must originate either from a URL or an array buffer to start playback. Not both."]
    None.


(** The input has both a URL and an array buffer, or neither. *)
Definition invalid_source (input : source_input) : option event :=
  match arrayBuffer input, JS.truthy_string (url input) with
  | None, false => Some unknown_source
  | Some _, true => Some ambiguous_source
  | _, _ => None
  end.

(** No procedure of the host or of the engine (a call made for its effect,
    such as closing the context or freeing a buffer) throws or rejects. *)
Definition reliable (env : environment) : Prop :=
  forall tr a, succeeds env tr a = true.

(** ** What a program adds to the trace, and what it leaves alone *)

(** [c] only appends calls accepted by [P]. *)
Definition only {A : Type} (P : action -> bool) (c : M A) : Prop :=
  forall w, exists l,
    trace (snd (c w)) = trace w ++ l /\ forallb P l = true.

(** [c] does not change the observation [f] of the instance. *)
Definition keeps {A B : Type} (f : player -> B) (c : M A) : Prop :=
  forall w, f (this (snd (c w))) = f (this w).

(** Any call but those of the cycle. *)
Definition not_cycle_call (a : action) : bool := negb (is_cycle_call a).

(** The engine answers every call and every write to its heap succeeds;
    nothing is assumed of the patch fetches. *)
Definition engine_answers (env : environment) : Prop :=
  (forall tr a, engine_number env tr a <> None)
  /\ (forall tr a, engine_string env tr a <> None)
  /\ (forall tr data ptr, succeeds env tr (WriteArrayToMemory data ptr) = true).

(** ** Sequences of operations *)

(** The public operations other than [setVolume], and the audio callback
    that the host fires while a song plays. *)
Inductive operation : Type :=
| Play (input : source_input) (audioContext : option Host.AudioContext)
| Preload (items : list source_input)
          (audioContext : option Host.AudioContext)
| Pause
| Resume
| Stop
| GetVolume
| EmitEvent (event : option string) (m : option string)
| SetLogger (eventLogger0 : option Z) (logging0 : bool)
| AudioProcess (outputBuffer : list Q).

(** The instance and the trace after an operation, whether it returned or
    threw. *)
Definition perform (env : environment) (size fmt : Z) (op : operation)
           (w : world) : world :=
  match op with
  | Play input audioContext => snd (play env size fmt input audioContext w)
  | Preload items audioContext =>
      snd (preload env size fmt items audioContext w)
  | Pause => snd (pause env w)
  | Resume => snd (resume env w)
  | Stop => snd (stop env w)
  | GetVolume => snd (getVolume w)
  | EmitEvent event m => snd (emitEvent event m w)
  | SetLogger f l => snd (setLogger f l w)
  | AudioProcess out => snd (handleOutput env size out w)
  end.

Definition perform_all (env : environment) (size fmt : Z)
           (ops : list operation) (w : world) : world :=
  fold_left (fun w0 op => perform env size fmt op w0) ops w.

(** ** Concrete collaborators and instances *)

Definition buffer_size : Z := 8192.
Definition s16lsb : Z := 32784.

(** The name the example engine gives to the missing patch of index [i]:
    [a.pat], [b.pat], ... *)
Definition patch_name (i : Z) : string :=
  String (ascii_of_nat (Z.to_nat (97 + i))) ".pat".

(** An engine that misses [missing] patches and whose heap holds the bytes
    F0 D8 (the sample -10000) at every even address; the fetch of the patch
    [failing], if any, is rejected and every other call succeeds; the read
    of wave data produces [wave] bytes. *)
Definition engine (missing wave : Z) (failing : option string)
  : environment :=
  {| engine_number := fun tr a =>
       match a with
       | Malloc _ => Some (4096 + 8 * Z.of_nat (length tr))
       | Call f _ =>
           if String.eqb f "mid_song_get_num_missing_instruments"
           then Some missing
           else if String.eqb f "mid_song_read_wave" then Some wave
           else Some (1 + Z.of_nat (length tr))
       | _ => Some 0
       end;
     engine_string := fun _ a =>
       match a with
       | Call _ [_; ANum i] => Some (patch_name i)
       | _ => Some EmptyString
       end;
     succeeds := fun _ a =>
       match a with
       | LoadPatchFromUrl _ p =>
           match failing with
           | Some q => negb (String.eqb p q)
           | None => true
           end
       | _ => true
       end;
     host_context := fun _ =>
       Some {| Host.sampleRate := 44100; Host.currentTime := 0 |};
     fetch_status := fun _ _ => Some 200;
     fetch_body := fun _ _ => Some [77; 84; 104; 100];
     memory := fun _ p => if Z.even p then 240 else 216;
     window_name := None |}.

(** The same collaborators on a host that cannot create an audio
    context. *)
Definition without_audio (env : environment) : environment :=
  {| engine_number := engine_number env;
     engine_string := engine_string env;
     succeeds := succeeds env;
     host_context := fun _ => None;
     fetch_status := fetch_status env;
     fetch_body := fetch_body env;
     memory := memory env;
     window_name := window_name env |}.

Definition midi_bytes : list Z := [77; 84; 104; 100; 0; 0; 0; 6].

(** [new MidiPlayer()] with the default configuration. *)
Definition fresh (env : environment) : world :=
  snd (constructor env None false "https://cdn.jsdelivr.net/npm/midi-instrument-patches@latest/"
         (JS.VNum (JS.Fin 80)) true
         {| this := blank; trace := [] |}).

Definition from_buffer : source_input :=
  {| arrayBuffer := Some midi_bytes; url := None; name := Some "tune"%string |}.

Definition from_nothing : source_input :=
  {| arrayBuffer := None; url := None; name := None |}.

Definition from_both : source_input :=
  {| arrayBuffer := Some midi_bytes; url := Some "media/file.midi"%string;
     name := None |}.

(** An instance that is playing: [play({ arrayBuffer })] has completed. *)
Definition playing (env : environment) : world :=
  snd (play env buffer_size s16lsb from_buffer None (fresh env)).

(** The same instance a quarter of a second later on the host clock. *)
Definition later (w : world) : world :=
  {| this :=
       set_context
         (Some {| Host.sampleRate := 44100; Host.currentTime := 1 # 4 |})
         (this w);
     trace := trace w |}.

(** An instance whose audio context is set and that has not loaded a
    song. *)
Definition ready (env : environment) : world :=
  snd (initAudioContext env None (fresh env)).

(** ** Further observations and collaborators *)

Definition is_stop_event (a : action) : bool :=
  match a with
  | Sink emitStop => true
  | _ => false
  end.

Definition is_play_event (a : action) : bool :=
  match a with
  | Sink (emitPlay _) => true
  | _ => false
  end.


(** The calls that belong to playback and not to loading: starting the
    song, building the output stage, releasing, and the events of a
    session. *)
Definition is_playback_call (a : action) : bool :=
  match a with
  | Call f _ =>
      (String.eqb f "mid_song_start" || String.eqb f "mid_song_read_wave"
       || String.eqb f "mid_song_free" || String.eqb f "mid_exit")%bool
  | Free _ | ContextClose | SourceDisconnect | CreateScriptProcessor _ _ _
  | CreateGain | GainConnect | SourceConnect | ContextSuspend
  | ContextResume => true
  | Sink (emitPlay _) | Sink (emitLoadFile _) | Sink emitStop
  | Sink (emitEnd _) | Sink (emitPause _) | Sink (emitResume _) => true
  | _ => false
  end.

Definition not_playback_call (a : action) : bool :=
  negb (is_playback_call a).

Definition stop_error (e : exn) : action :=
  Sink (emitError [Text "Could not stop playback."] (Some (Caught e))).


Definition playback_error (e : exn) : action :=
  Sink (emitError [Text "Could not initialize playback."] (Some (Caught e))).

Definition audio_error (e : exn) : action :=
  Sink (emitError [Text "Could not process audio."] (Some (Caught e))).

Definition context_error (e : exn) : action :=
  Sink (emitError [Text "Could not set AudioContext."] (Some (Caught e))).

(** What [stop] adds when it releases a live session without failure. *)
Definition release_calls (p : player) : list action :=
  [ContextClose; SourceDisconnect; Free (waveBuffer p);
   Free (midiFileBuffer p); Call "mid_song_free" [arg_of (song p)];
   Call "mid_exit" []; Sink emitStop].

(** What [initPlayback] adds when nothing fails. *)
Definition playback_calls (p : player) (size : Z) : list action :=
  [Call "mid_song_start" [arg_of (song p)];
   CreateScriptProcessor size 0 1; CreateGain; GainConnect; SourceConnect;
   Malloc (size * 2); Sink (emitPlay 0)].

(** The calls of patch resolution for the patches [names], from index [i]
    on: for each index the query of the name, then the fetch. *)
Fixpoint rounds (sg : option Z) (patchUrl0 : string) (i : Z)
         (names : list string) : list action :=
  match names with
  | [] => []
  | p :: rest =>
      Call "mid_song_get_missing_instrument" [arg_of sg; ANum i]
        :: LoadPatchFromUrl patchUrl0 p
        :: rounds sg patchUrl0 (i + 1) rest
  end.

(** The error event of a rejected fetch, if the result of patch resolution
    is [false]. *)
Definition patch_failure (r : JS.value) (i : Z) (names : list string)
  : list action :=
  match r with
  | JS.VBool false =>
      [Sink (emitError
               (could_not_retrieve_patch (last names EmptyString)
                  (i + Z.of_nat (length names) - 1))
               (Some (Caught CollaboratorError)))]
  | _ => []
  end.

(** Every result that [c] returns satisfies [P]. *)
Definition yields {A : Type} (P : A -> Prop) (c : M A) : Prop :=
  forall w a, fst (c w) = Ok a -> P a.

(** [c] never throws. *)
Definition returns {A : Type} (c : M A) : Prop :=
  forall w, exists a w', c w = (Ok a, w').

Definition false_or_undefined (v : JS.value) : Prop :=
  v = JS.VBool false \/ v = JS.VUndefined.

(** Collaborators as [env], except that the procedures selected by [bad]
    throw. *)
Definition failing (bad : action -> bool) (env : environment)
  : environment :=
  {| engine_number := engine_number env;
     engine_string := engine_string env;
     succeeds := fun tr a => if bad a then false else succeeds env tr a;
     host_context := host_context env;
     fetch_status := fetch_status env;
     fetch_body := fetch_body env;
     memory := memory env;
     window_name := window_name env |}.

(** Collaborators as [env], except for what the network answers. *)
Definition with_network (status : option Z) (body : option (list Z))
           (env : environment) : environment :=
  {| engine_number := engine_number env;
     engine_string := engine_string env;
     succeeds := succeeds env;
     host_context := host_context env;
     fetch_status := fun _ _ => status;
     fetch_body := fun _ _ => body;
     memory := memory env;
     window_name := window_name env |}.



(** [P] accepts every call that patch resolution can make. *)
Definition accepts_patch_calls (P : action -> bool) : Prop :=
  (forall args, P (Call "mid_song_get_num_missing_instruments" args) = true)
  /\ (forall args, P (Call "mid_song_get_missing_instrument" args) = true)
  /\ (forall u p, P (LoadPatchFromUrl u p) = true)
  /\ (forall m, P (Sink (emitLoadPatch m)) = true)
  /\ (forall p i e,
        P (Sink (emitError (could_not_retrieve_patch p i) e)) = true).

Definition is_free (a : action) : bool :=
  match a with
  | Free _ => true
  | _ => false
  end.

Definition from_url : source_input :=
  {| arrayBuffer := None; url := Some "media/file.midi"%string;
     name := Some "tune"%string |}.

Definition from_empty_url : source_input :=
  {| arrayBuffer := None; url := Some EmptyString; name := None |}.

(** ** What a refused play adds, and what the engine answered to a run of
    patch fetches *)

(** What [play] adds after its initial [stop] when the source is refused:
    the creation of the audio context if none was passed, then one error
    event, which is that of the source [ev] unless no context could be
    created.  [host] is the host's answer to the creation. *)
Definition invalid_play_tail (ctx host : option Host.AudioContext)
           (ev : event) : list action :=
  match ctx, host with
  | Some _, _ => [Sink ev]
  | None, Some _ => [NewAudioContext; Sink ev]
  | None, None => [NewAudioContext; context_error CollaboratorError]
  end.

(** The result of patch resolution is [false]. *)
Definition is_false (r : JS.value) : bool :=
  match r with
  | JS.VBool false => true
  | _ => false
  end.

(** The patches [names] are what the collaborators made of a run of
    rounds that starts at index [i] after the history [tr]: each name is
    the engine's answer to the query of its index at that point of the
    history, every fetch but the last was accepted, and the last one was
    rejected exactly when [rejected] is set. *)
Fixpoint answered (env : environment) (sg : option Z) (patchUrl0 : string)
         (tr : list action) (i : Z) (names : list string) (rejected : bool)
  : Prop :=
  match names with
  | [] => True
  | p :: rest =>
      let query :=
        Call "mid_song_get_missing_instrument" [arg_of sg; ANum i] in
      let fetch := LoadPatchFromUrl patchUrl0 p in
      engine_string env tr query = Some p
      /\ succeeds env (tr ++ [query]) fetch
         = match rest with
           | [] => negb rejected
           | _ :: _ => true
           end
      /\ answered env sg patchUrl0 ((tr ++ [query]) ++ [fetch]) (i + 1) rest
           rejected
  end.


(** * Properties *)

(** ** The JavaScript fragment on examples *)

Example parseFloat_50 : JS.parseFloat (JS.VStr "50") = JS.Fin 50.
Proof. reflexivity. Qed.

Example parseFloat_abc : JS.parseFloat (JS.VStr "abc") = JS.NaN.
Proof. reflexivity. Qed.

Example parseFloat_prefix :
  JS.parseFloat (JS.VStr "  -1.5e1px") = JS.Fin (-15).
Proof. reflexivity. Qed.

Example ToNumber_prefix : JS.ToNumber (JS.VStr "50px") = JS.NaN.
Proof. reflexivity. Qed.

Example ToNumber_hex : JS.ToNumber (JS.VStr " 0x1F ") = JS.Fin 31.
Proof. reflexivity. Qed.

Example div100_50 : JS.div100 (JS.VStr "50") = JS.Fin (1 # 2).
Proof. reflexivity. Qed.

(** ** Samples and the output buffer *)

Lemma getValue_i16_range (mem : Z -> Z) (ptr : Z) :
  -32768 <= getValue_i16 mem ptr <= 32767.
Proof.
  unfold getValue_i16.
  pose proof (Z.mod_pos_bound (mem ptr) 256 eq_refl) as Hlo.
  pose proof (Z.mod_pos_bound (mem (ptr + 1)) 256 eq_refl) as Hhi.
  destruct (Z.ltb_spec (mem ptr mod 256 + 256 * (mem (ptr + 1) mod 256)) 32768);
    lia.
Qed.

Lemma sample_range (mem : Z -> Z) (wb : option Z) (i : Z) :
  (-32768 # 32767 <= sample mem wb i <= 1)%Q.
Proof.
  unfold sample.
  set (ptr := match wb with Some b => b + 2 * i | None => 0 end).
  pose proof (getValue_i16_range mem ptr) as Hr.
  unfold Qle, Qdiv, Qmult, Qinv, inject_Z, MAX_I16; simpl.
  split; lia.
Qed.

Lemma store_length {A : Type} (l : list A) (i : nat) (v : A) :
  length (store l i v) = length l.
Proof.
  revert i; induction l as [|h t IH]; intros [|j]; simpl; auto.
Qed.

Lemma nth_store_same {A : Type} (l : list A) (i : nat) (v d : A) :
  (i < length l)%nat -> nth i (store l i v) d = v.
Proof.
  revert i; induction l as [|h t IH]; intros [|j] Hi; simpl in *;
    try lia; auto.
  apply IH; lia.
Qed.

Lemma nth_store_other {A : Type} (l : list A) (i j : nat) (v d : A) :
  i <> j -> nth j (store l i v) d = nth j l d.
Proof.
  revert i j; induction l as [|h t IH]; intros [|i] [|j] Hij; simpl;
    try congruence; auto.
Qed.

Lemma fill_length mem wb n left i out :
  length (fill mem wb n left i out) = length out.
Proof.
  revert i out; induction left as [|k IH]; intros i out; simpl; auto.
  rewrite IH. apply store_length.
Qed.

(** Slots below the running index keep what they hold. *)
Lemma fill_below mem wb n left i out (j : nat) d :
  0 <= i -> (j < Z.to_nat i)%nat ->
  nth j (fill mem wb n left i out) d = nth j out d.
Proof.
  revert i out; induction left as [|k IH]; intros i out Hi Hj; simpl; auto.
  rewrite IH by lia.
  apply nth_store_other. lia.
Qed.

(** Each slot from the running index on, within the number of slots left
    and within the buffer, receives its sample or silence. *)
Lemma fill_slot mem wb n left i out (j : Z) d :
  0 <= i -> i <= j < i + Z.of_nat left -> (Z.to_nat j < length out)%nat ->
  nth (Z.to_nat j) (fill mem wb n left i out) d
  = (if j <? n then sample mem wb j else 0)%Q.
Proof.
  revert i out; induction left as [|k IH]; intros i out Hi Hj Hlen.
  - lia.
  - simpl. destruct (Z.eq_dec i j) as [->|Hne].
    + rewrite fill_below by lia.
      apply nth_store_same; assumption.
    + apply IH; try lia.
      rewrite store_length; assumption.
Qed.

(** C3.  In an audio callback in which the engine reports a positive number
    [n] of produced bytes, every slot [i] below the chunk size holds, after
    the callback, the signed little-endian 16-bit value [s] read from the
    scratch buffer at byte offset [2 * i] divided by 32767 when [i < n], and
    0 otherwise; [s] lies in [-32768, 32767] and the slot in
    [-32768/32767, 1]. *)
Theorem handleOutput_samples
        (env : environment) (size : Z) (w : world) (out : list Q)
        (c : Host.AudioContext) (wb n : Z) :
  context (this w) = Some c ->
  waveBuffer (this w) = Some wb ->
  produced env size w = Some n ->
  0 < n ->
  exists out' w',
    handleOutput env size out w = (Ok out', w')
    /\ length out' = length out
    /\ forall i, 0 <= i < size -> (Z.to_nat i < length out)%nat ->
         let s := getValue_i16 (memory env (trace w')) (wb + 2 * i) in
         -32768 <= s <= 32767
         /\ nth (Z.to_nat i) out' 0%Q
            = (if i <? n then inject_Z s / 32767 else 0)%Q
         /\ (-32768 # 32767 <= nth (Z.to_nat i) out' 0 <= 1)%Q.
Proof.
  intros Hc Hwb Hn Hpos.
  unfold produced in Hn. rewrite Hc in Hn. unfold elapsed, read_wave in Hn.
  unfold handleOutput, try, bind, defined, gets, emit, call_number, heap, ret.
  rewrite Hc. cbn [log this trace].
  rewrite Hn.
  destruct (Z.eqb_spec n 0) as [->|_]; [lia|].
  cbn [log this trace].
  eexists; eexists; split; [reflexivity|].
  split; [apply fill_length|].
  intros i Hi Hlen. cbn zeta.
  split; [apply getValue_i16_range|].
  rewrite (fill_slot _ _ _ _ 0 out i 0%Q) by lia.
  rewrite Hwb.
  split.
  - destruct (i <? n); reflexivity.
  - destruct (i <? n).
    + apply (sample_range _ (Some wb) i).
    + split; unfold Qle; simpl; lia.
Qed.

(** ** Rules for the trace and the instance, construct by construct *)

Section Frames.

Variable env : environment.
Variable P : action -> bool.
Context {C : Type}.
Variable f : player -> C.

Lemma only_nothing {A : Type} (c : M A) :
  (forall w, trace (snd (c w)) = trace w) -> only P c.
Proof.
  intros H w. exists []. rewrite app_nil_r. auto.
Qed.

Lemma only_one {A : Type} (c : M A) (a : action) :
  P a = true -> (forall w, snd (c w) = log a w) -> only P c.
Proof.
  intros Ha H w. exists [a]. rewrite H. simpl. rewrite Ha. auto.
Qed.

Lemma only_ret {A : Type} (a : A) : only P (ret a).
Proof. apply only_nothing; reflexivity. Qed.

Lemma only_throw {A : Type} (e : exn) : only P (@throw A e).
Proof. apply only_nothing; reflexivity. Qed.

Lemma only_gets {A : Type} (g : player -> A) : only P (gets g).
Proof. apply only_nothing; reflexivity. Qed.

Lemma only_modify (g : player -> player) : only P (modify g).
Proof. apply only_nothing; reflexivity. Qed.

Lemma only_defined {A : Type} (g : player -> option A) : only P (defined g).
Proof.
  apply only_nothing; intros w; unfold defined.
  destruct (g (this w)); reflexivity.
Qed.

Lemma only_heap : only P (heap env).
Proof. apply only_nothing; reflexivity. Qed.

Lemma only_emit (e : event) : P (Sink e) = true -> only P (emit e).
Proof. intros H; apply (only_one _ (Sink e)); auto. Qed.

Lemma only_call_number (a : action) :
  P a = true -> only P (call_number env a).
Proof.
  intros H; apply (only_one _ a); auto.
  intros w; unfold call_number.
  destruct (engine_number env (trace w) a); reflexivity.
Qed.

Lemma only_call_string (a : action) :
  P a = true -> only P (call_string env a).
Proof.
  intros H; apply (only_one _ a); auto.
  intros w; unfold call_string.
  destruct (engine_string env (trace w) a); reflexivity.
Qed.

Lemma only_call_void (a : action) :
  P a = true -> only P (call_void env a).
Proof.
  intros H; apply (only_one _ a); auto.
  intros w; unfold call_void.
  destruct (succeeds env (trace w) a); reflexivity.
Qed.

Lemma only_construct_context :
  P NewAudioContext = true -> only P (construct_context env).
Proof.
  intros H; apply (only_one _ NewAudioContext); auto.
  intros w; unfold construct_context.
  destruct (host_context env (trace w)); reflexivity.
Qed.

Lemma only_call_fetch (u : option string) :
  P (Fetch u) = true -> only P (call_fetch env u).
Proof.
  intros H; apply (only_one _ (Fetch u)); auto.
  intros w; unfold call_fetch.
  destruct (fetch_status env (trace w) (Fetch u)); reflexivity.
Qed.

Lemma only_call_arrayBuffer :
  P ResponseArrayBuffer = true -> only P (call_arrayBuffer env).
Proof.
  intros H; apply (only_one _ ResponseArrayBuffer); auto.
  intros w; unfold call_arrayBuffer.
  destruct (fetch_body env (trace w) ResponseArrayBuffer); reflexivity.
Qed.

Lemma only_bind {A B : Type} (c : M A) (k : A -> M B) :
  only P c -> (forall a, only P (k a)) -> only P (bind c k).
Proof.
  intros Hc Hk w. unfold bind.
  destruct (Hc w) as [l [Hl Pl]].
  destruct (c w) as [[a|e] w1]; simpl in *.
  - destruct (Hk a w1) as [l' [Hl' Pl']].
    exists (l ++ l'). rewrite Hl', Hl, app_assoc, forallb_app, Pl, Pl'. auto.
  - exists l. auto.
Qed.

Lemma only_try {A : Type} (c : M A) (h : exn -> M A) :
  only P c -> (forall e, only P (h e)) -> only P (try c h).
Proof.
  intros Hc Hh w. unfold try.
  destruct (Hc w) as [l [Hl Pl]].
  destruct (c w) as [[a|e] w1]; simpl in *.
  - exists l. auto.
  - destruct (Hh e w1) as [l' [Hl' Pl']].
    exists (l ++ l'). rewrite Hl', Hl, app_assoc, forallb_app, Pl, Pl'. auto.
Qed.

Lemma keeps_nothing {A : Type} (c : M A) :
  (forall w, this (snd (c w)) = this w) -> keeps f c.
Proof. intros H w. rewrite H. reflexivity. Qed.

Lemma keeps_ret {A : Type} (a : A) : keeps f (ret a).
Proof. apply keeps_nothing; reflexivity. Qed.

Lemma keeps_throw {A : Type} (e : exn) : keeps f (@throw A e).
Proof. apply keeps_nothing; reflexivity. Qed.

Lemma keeps_gets {A : Type} (g : player -> A) : keeps f (gets g).
Proof. apply keeps_nothing; reflexivity. Qed.

Lemma keeps_defined {A : Type} (g : player -> option A) : keeps f (defined g).
Proof.
  apply keeps_nothing; intros w; unfold defined.
  destruct (g (this w)); reflexivity.
Qed.

Lemma keeps_modify (g : player -> player) :
  (forall p, f (g p) = f p) -> keeps f (modify g).
Proof. intros H w. apply H. Qed.

Lemma keeps_heap : keeps f (heap env).
Proof. apply keeps_nothing; reflexivity. Qed.

Lemma keeps_emit (e : event) : keeps f (emit e).
Proof. apply keeps_nothing; reflexivity. Qed.

Lemma keeps_call_number (a : action) : keeps f (call_number env a).
Proof.
  apply keeps_nothing; intros w; unfold call_number.
  destruct (engine_number env (trace w) a); reflexivity.
Qed.

Lemma keeps_call_string (a : action) : keeps f (call_string env a).
Proof.
  apply keeps_nothing; intros w; unfold call_string.
  destruct (engine_string env (trace w) a); reflexivity.
Qed.

Lemma keeps_call_void (a : action) : keeps f (call_void env a).
Proof.
  apply keeps_nothing; intros w; unfold call_void.
  destruct (succeeds env (trace w) a); reflexivity.
Qed.

Lemma keeps_construct_context : keeps f (construct_context env).
Proof.
  intros w; unfold construct_context.
  destruct (host_context env (trace w)); reflexivity.
Qed.

Lemma keeps_call_fetch (u : option string) : keeps f (call_fetch env u).
Proof.
  intros w; unfold call_fetch.
  destruct (fetch_status env (trace w) (Fetch u)); reflexivity.
Qed.

Lemma keeps_call_arrayBuffer : keeps f (call_arrayBuffer env).
Proof.
  intros w; unfold call_arrayBuffer.
  destruct (fetch_body env (trace w) ResponseArrayBuffer); reflexivity.
Qed.

Lemma keeps_bind {A B : Type} (c : M A) (k : A -> M B) :
  keeps f c -> (forall a, keeps f (k a)) -> keeps f (bind c k).
Proof.
  intros Hc Hk w. unfold bind.
  specialize (Hc w).
  destruct (c w) as [[a|e] w1]; simpl in *.
  - rewrite Hk. assumption.
  - assumption.
Qed.

Lemma keeps_try {A : Type} (c : M A) (h : exn -> M A) :
  keeps f c -> (forall e, keeps f (h e)) -> keeps f (try c h).
Proof.
  intros Hc Hh w. unfold try.
  specialize (Hc w).
  destruct (c w) as [[a|e] w1]; simpl in *.
  - assumption.
  - rewrite Hh. assumption.
Qed.

End Frames.

Create HintDb frame discriminated.

#[export] Hint Resolve only_ret only_throw only_gets only_modify
  only_defined only_heap keeps_ret keeps_throw keeps_gets
  keeps_defined keeps_heap keeps_emit keeps_call_number keeps_call_string
  keeps_call_void keeps_construct_context keeps_call_fetch
  keeps_call_arrayBuffer : frame.

(** Walks a program: one rule per construct, a case split at each [match]
    and [if], and computation for the side conditions. *)
Ltac frame_step :=
  match goal with
  | |- forall _, _ => intro
  | |- only _ (bind _ _) => apply only_bind
  | |- keeps _ (bind _ _) => apply keeps_bind
  | |- only _ (try _ _) => apply only_try
  | |- keeps _ (try _ _) => apply keeps_try
  | |- only _ (emit _) => apply only_emit; reflexivity
  | |- only _ (call_number _ _) => apply only_call_number; reflexivity
  | |- only _ (call_string _ _) => apply only_call_string; reflexivity
  | |- only _ (call_void _ _) => apply only_call_void; reflexivity
  | |- only _ (construct_context _) =>
      apply only_construct_context; reflexivity
  | |- only _ (call_fetch _ _) => apply only_call_fetch; reflexivity
  | |- only _ (call_arrayBuffer _) => apply only_call_arrayBuffer; reflexivity
  | |- keeps _ (modify _) => apply keeps_modify; intros []; reflexivity
  | |- only _ (match ?x with _ => _ end) => destruct x
  | |- keeps _ (match ?x with _ => _ end) => destruct x
  | |- _ => solve [auto with frame]
  end.

Ltac frame := repeat frame_step.

Lemma added_app (w w' : world) (l : list action) :
  trace w' = trace w ++ l -> added w w' = l.
Proof.
  intros H. unfold added. rewrite H.
  rewrite skipn_app, skipn_all, Nat.sub_diag. reflexivity.
Qed.

Lemma filter_none (P : action -> bool) (l : list action) :
  forallb (fun a => negb (P a)) l = true -> filter P l = [].
Proof.
  induction l as [|a l IH]; simpl; auto.
  destruct (P a); simpl; auto. discriminate.
Qed.

(** ** stop *)

(** [stop] catches whatever its body throws. *)
Lemma stop_returns (env : environment) (w : world) :
  exists b w', stop env w = (Ok b, w').
Proof.
  unfold stop, try.
  match goal with |- context [match ?c w with _ => _ end] =>
    destruct (c w) as [[b|e] w1] end.
  - eauto.
  - unfold bind, emit, ret. eauto.
Qed.


Lemma stop_idle (env : environment) (w : world) :
  source (this w) = None ->
  stop env w
  = (Ok true,
     log (Sink emitStop)
       {| this := set_startTime 0 (this w); trace := trace w |}).
Proof.
  intros H. unfold stop, try, bind, gets. rewrite H. reflexivity.
Qed.


(** C6.  [stop()] on an instance without a live output stage returns
    [true] and adds exactly one call to the trace, the stop event: no
    context close, no disconnect, no buffer or song release, no other
    engine call. *)
Theorem stop_without_session (env : environment) (w : world) :
  source (this w) = None ->
  exists w',
    stop env w = (Ok true, w')
    /\ added w w' = [Sink emitStop]
    /\ count is_engine_call (added w w') = 0%nat.
Proof.
  intros H. rewrite (stop_idle env w H).
  eexists; split; [reflexivity|].
  rewrite (added_app w _ [Sink emitStop]) by reflexivity.
  split; reflexivity.
Qed.

(** ** handleOutput at the end of the stream *)


(** ** pause and resume *)

(** C9.  Without an audio context, [pause()] and [resume()] return [true]
    and add exactly one call, the pause (resume) event with time 0: nothing
    is suspended or resumed.  In every state each of them returns a boolean
    and never throws; when it returns [false] it has emitted exactly one
    error event, and none when it returns [true]. *)
Theorem pause_resume_report (env : environment) (w : world) :
  (context (this w) = None ->
   pause env w = (Ok true, log (Sink (emitPause 0)) w)
   /\ resume env w = (Ok true, log (Sink (emitResume 0)) w))
  /\ (exists b w' e,
        pause env w = (Ok b, w')
        /\ filter is_error_event (added w w')
           = if b then []
             else [Sink (emitError [Text "Could not pause playback."]
                           (Some (Caught e)))])
  /\ (exists b w' e,
        resume env w = (Ok b, w')
        /\ filter is_error_event (added w w')
           = if b then []
             else [Sink (emitError [Text "Could not resume playback."]
                           (Some (Caught e)))]).
Proof.
  split; [|split].
  - intros H. unfold pause, resume, try, bind, gets. rewrite H.
    split; reflexivity.
  - unfold pause, try, bind, gets, defined, call_void, emit, ret.
    destruct (context (this w)) as [c|] eqn:Hc; cbn [this trace log].
    + destruct (succeeds env (trace w) ContextSuspend);
        cbn [this trace log]; try rewrite Hc;
        eexists; eexists; exists CollaboratorError;
        (split; [reflexivity|]).
      * rewrite (added_app w _ [ContextSuspend;
                                Sink (emitPause
                                        (Host.currentTime c
                                         - startTime (this w)))])
          by (cbn [this trace log]; rewrite <- app_assoc; reflexivity).
        reflexivity.
      * rewrite (added_app w _ [ContextSuspend;
                                Sink (emitError
                                        [Text "Could not pause playback."]
                                        (Some (Caught CollaboratorError)))])
          by (cbn [this trace log]; rewrite <- app_assoc; reflexivity).
        reflexivity.
    + eexists; eexists; exists TypeError; split; [reflexivity|].
      rewrite (added_app w _ [Sink (emitPause 0)]) by reflexivity.
      reflexivity.
  - unfold resume, try, bind, gets, defined, call_void, emit, ret.
    destruct (context (this w)) as [c|] eqn:Hc; cbn [this trace log].
    + destruct (succeeds env (trace w) ContextResume);
        cbn [this trace log]; try rewrite Hc;
        eexists; eexists; exists CollaboratorError;
        (split; [reflexivity|]).
      * rewrite (added_app w _ [ContextResume;
                                Sink (emitResume
                                        (Host.currentTime c
                                         - startTime (this w)))])
          by (cbn [this trace log]; rewrite <- app_assoc; reflexivity).
        reflexivity.
      * rewrite (added_app w _ [ContextResume;
                                Sink (emitError
                                        [Text "Could not resume playback."]
                                        (Some (Caught CollaboratorError)))])
          by (cbn [this trace log]; rewrite <- app_assoc; reflexivity).
        reflexivity.
    + eexists; eexists; exists TypeError; split; [reflexivity|].
      rewrite (added_app w _ [Sink (emitResume 0)]) by reflexivity.
      reflexivity.
Qed.

(** ** getVolume and setVolume *)


Lemma setVolume_accepted (v : JS.value) (w : world) :
  numeric v = true ->
  setVolume v w
  = match gainNode (this w) with
    | Some _ =>
        (Ok tt,
         {| this :=
              set_gainNode (Some {| Host.gain := JS.div100 v |})
                (set_volume v (this w));
            trace := trace w |})
    | None =>
        (Throw TypeError,
         {| this := set_volume v (this w); trace := trace w |})
    end.
Proof.
  unfold numeric, setVolume. intros H.
  destruct (JS.isNaN (JS.parseFloat v)); [discriminate|].
  unfold bind, modify, defined. cbn [this trace gainNode set_volume].
  destruct (gainNode (this w)); reflexivity.
Qed.



(** ** Loading a song *)

Lemma patch_loop_keeps {C : Type} (env : environment) (f : player -> C)
      (left : nat) (i : Z) :
  keeps f (patch_loop env left i).
Proof.
  revert i; induction left as [|k IH]; intros i; simpl; frame.
Qed.

Lemma getInstrumentPatches_keeps {C : Type} (env : environment)
      (f : player -> C) :
  keeps f (getInstrumentPatches env).
Proof.
  unfold getInstrumentPatches. frame. apply patch_loop_keeps.
Qed.

Lemma patch_loop_no_cycle (env : environment) (left : nat) (i : Z) :
  only not_cycle_call (patch_loop env left i).
Proof.
  revert i; induction left as [|k IH]; intros i; simpl; frame.
Qed.

(** Patch resolution starts with the query of the missing-instrument count
    and never opens, loads or closes a stream. *)
Lemma getInstrumentPatches_trace (env : environment) (w : world) :
  exists rest,
    trace (snd (getInstrumentPatches env w))
    = trace w
        ++ Call "mid_song_get_num_missing_instruments"
             [arg_of (song (this w))] :: rest
    /\ forallb not_cycle_call rest = true.
Proof.
  unfold getInstrumentPatches, bind at 1 2, gets, call_number.
  destruct (engine_number env (trace w) _) as [n|].
  - assert (Hk : only not_cycle_call
                   (if 0 <? n
                    then
                      emit (emitLoadPatch
                              [Text "Loading ";
                               Interp (JS.VNum (JS.Fin (inject_Z n)));
                               Text " instrument patches..."]) ;;
                      patch_loop env (Z.to_nat n) 0
                    else ret JS.VUndefined)).
    { frame. apply patch_loop_no_cycle. }
    match goal with |- context [snd (?k ?w0)] =>
      destruct (Hk w0) as [l [Hl Pl]] end.
    exists l. rewrite Hl. cbn [log this trace].
    rewrite <- app_assoc. auto.
  - exists []. auto.
Qed.

Lemma handleStream_ok (env : environment) (size fmt : Z) (data : list Z)
      (w w1 : world) (options : Z) :
  midiFileArray (this w) = Some data ->
  handleStream env size fmt w = (Ok options, w1) ->
  exists buffer s,
    trace w1
    = trace w ++ first_cycle data (sampleRate (this w)) fmt size buffer s
                   options
    /\ midiFileBuffer (this w1) = Some buffer
    /\ midiFileArray (this w1) = Some data.
Proof.
  intros Hd H.
  unfold handleStream, bind, defined, gets, modify, call_number, call_void,
    ret in H.
  rewrite Hd in H. cbn [this trace log] in H.
  repeat match type of H with
         | context [engine_number ?e ?t ?a] =>
             destruct (engine_number e t a) eqn:?; cbn [this trace log] in H;
             [|discriminate]
         | context [succeeds ?e ?t ?a] =>
             destruct (succeeds e t a) eqn:?; cbn [this trace log] in H;
             [|discriminate]
         end.
  inversion H; subst; clear H. cbn [this trace log].
  do 2 eexists. split; [|split]; try reflexivity.
  - unfold first_cycle. rewrite <- !app_assoc. reflexivity.
  - cbn. exact Hd.
Qed.

(** ** Operations that leave the volume alone *)

Lemma stop_keeps_volume (env : environment) : keeps volume (stop env).
Proof. unfold stop, freeMemory, disconnectSource. frame. Qed.

Lemma handleStream_keeps_volume (env : environment) (size fmt : Z) :
  keeps volume (handleStream env size fmt).
Proof. unfold handleStream. frame. Qed.

Lemma play_keeps_volume (env : environment) (size fmt : Z)
      (input : source_input) (ctx : option Host.AudioContext) :
  keeps volume (play env size fmt input ctx).
Proof.
  unfold play, initPlayback, connectSource, createGainNode, loadSong,
    getSource, isSourceValid, initAudioContext.
  frame;
    first [ apply stop_keeps_volume
          | apply handleStream_keeps_volume
          | apply getInstrumentPatches_keeps ].
Qed.

Lemma preload_keeps_volume (env : environment) (size fmt : Z)
      (items : list source_input) (ctx : option Host.AudioContext) :
  keeps volume (preload env size fmt items ctx).
Proof.
  induction items as [|item rest IH]; simpl.
  - frame.
  - unfold getSource, isSourceValid, initAudioContext.
    frame;
      first [ apply handleStream_keeps_volume
            | apply getInstrumentPatches_keeps
            | apply IH ].
Qed.

Lemma handleOutput_keeps_volume (env : environment) (size : Z)
      (out : list Q) :
  keeps volume (handleOutput env size out).
Proof. unfold handleOutput. frame. apply stop_keeps_volume. Qed.

(** No operation other than [setVolume] writes the stored volume. *)
Lemma perform_keeps_volume (env : environment) (size fmt : Z)
      (op : operation) (w : world) :
  volume (this (perform env size fmt op w)) = volume (this w).
Proof.
  destruct op; cbn [perform].
  - apply play_keeps_volume.
  - apply preload_keeps_volume.
  - revert w. change (keeps volume (pause env)). unfold pause. frame.
  - revert w. change (keeps volume (resume env)). unfold resume. frame.
  - apply stop_keeps_volume.
  - reflexivity.
  - reflexivity.
  - reflexivity.
  - apply handleOutput_keeps_volume.
Qed.

Lemma perform_all_keeps_volume (env : environment) (size fmt : Z)
      (ops : list operation) (w : world) :
  volume (this (perform_all env size fmt ops w)) = volume (this w).
Proof.
  unfold perform_all. revert w.
  induction ops as [|op ops IH]; intros w; simpl.
  - reflexivity.
  - rewrite IH. apply perform_keeps_volume.
Qed.

(** ** The stored volume *)

(** C10.  After [setVolume({ volume: v })] with a [v] whose [parseFloat]
    is not [NaN], the stored volume is [v] itself, not its parsed number:
    [getVolume()] returns [v] right away and after any sequence of the
    other operations; when a gain node exists the call returns and the
    gain is set to [v / 100]. *)
Theorem setVolume_keeps_argument
        (env : environment) (size fmt : Z) (v : JS.value) (w : world) :
  JS.isNaN (JS.parseFloat v) = false ->
  let w' := snd (setVolume v w) in
  getVolume w' = (Ok v, w')
  /\ (forall ops, fst (getVolume (perform_all env size fmt ops w')) = Ok v)
  /\ forall g, gainNode (this w) = Some g ->
       fst (setVolume v w) = Ok tt
       /\ gainNode (this w') = Some {| Host.gain := JS.div100 v |}.
Proof.
  intros H w'.
  assert (Hn : numeric v = true) by (unfold numeric; rewrite H; reflexivity).
  assert (Hv : volume (this w') = v).
  { subst w'. rewrite (setVolume_accepted v w Hn).
    destruct (gainNode (this w)); reflexivity. }
  split; [|split].
  - unfold getVolume, gets. rewrite Hv. reflexivity.
  - intros ops. unfold getVolume, gets. cbn [fst].
    rewrite perform_all_keeps_volume, Hv. reflexivity.
  - subst w'. rewrite (setVolume_accepted v w Hn).
    intros g Hg. rewrite Hg. split; reflexivity.
Qed.

(** C4.  A song load that completes (the load step of [play()], returning
    [true]) adds to the trace: the first open-stream, load-song,
    close-stream cycle, then the calls of patch resolution, which start
    with the query of the missing-instrument count and contain no call of
    the cycle, then the second cycle, over the same buffer and length and
    with the same options.  So the cycle is performed exactly twice,
    however many patches were missing. *)
Theorem loadSong_two_cycles
        (env : environment) (size fmt : Z) (data : list Z) (w w' : world) :
  loadSong env size fmt data w = (Ok true, w') ->
  exists buffer s1 s2 options sg rest,
    added w w'
    = first_cycle data (sampleRate (this w)) fmt size buffer s1 options
        ++ (Call "mid_song_get_num_missing_instruments" [ANum sg] :: rest)
        ++ second_cycle data buffer s2 options
    /\ filter is_cycle_call rest = []
    /\ count is_cycle_call (added w w') = 6%nat.
Proof.
  intros H.
  unfold loadSong, try, bind at 1, modify in H.
  set (w0 := {| this := set_midiFileArray (Some data) (this w);
                trace := trace w |}) in H.
  unfold bind at 1 in H.
  destruct (handleStream env size fmt w0) as [[options|e] w1] eqn:Hh;
    [|discriminate].
  destruct (handleStream_ok env size fmt data w0 w1 options eq_refl Hh)
    as [buffer [s1 [Ht1 [Hb1 Ha1]]]].
  unfold bind at 1 in H.
  pose proof (getInstrumentPatches_trace env w1) as [rest [Ht2 Pr]].
  pose proof (getInstrumentPatches_keeps env (fun p => p) w1) as Hk.
  destruct (getInstrumentPatches env w1) as [[r|e] w2]; [|discriminate].
  cbn [snd] in Ht2, Hk.
  unfold bind, gets, defined, modify, call_number, ret in H.
  rewrite Hk, Hb1, Ha1 in H. cbn [this trace log arg_of] in H.
  repeat match type of H with
         | context [engine_number ?e ?t ?a] =>
             destruct (engine_number e t a) eqn:?; cbn [this trace log] in H;
             [|discriminate]
         end.
  inversion H; subst w'; clear H.
  assert (Hsong : exists sg, song (this w1) = Some sg).
  { unfold handleStream, bind, defined, gets, modify, call_number,
      call_void, ret in Hh.
    cbn [this trace log w0 midiFileArray set_midiFileArray] in Hh.
    repeat match type of Hh with
           | context [engine_number ?e ?t ?a] =>
               destruct (engine_number e t a); cbn [this trace log] in Hh;
               [|discriminate]
           | context [succeeds ?e ?t ?a] =>
               destruct (succeeds e t a); cbn [this trace log] in Hh;
               [|discriminate]
           end.
    inversion Hh; subst. eexists; reflexivity. }
  destruct Hsong as [sg Hsg]. rewrite Hsg in Ht2. cbn [arg_of] in Ht2.
  assert (Hrest : filter is_cycle_call rest = [])
    by (apply filter_none; exact Pr).
  match goal with |- context [added w ?x] =>
    assert (Hadd :
      added w x
      = first_cycle data (sampleRate (this w)) fmt size buffer s1 options
          ++ (Call "mid_song_get_num_missing_instruments" [ANum sg] :: rest)
          ++ second_cycle data buffer z options)
  end.
  { apply added_app. cbn [this trace log].
    rewrite Ht2, Ht1. unfold second_cycle. cbn [w0 this trace sampleRate
      set_midiFileArray].
    rewrite <- !app_assoc. reflexivity. }
  exists buffer, s1, z, options, sg, rest.
  split; [exact Hadd|]. split; [exact Hrest|].
  rewrite Hadd. unfold count.
  rewrite !filter_app. cbn [filter is_cycle_call first_cycle second_cycle].
  cbn. rewrite Hrest. reflexivity.
Qed.

(** The load of [play()] is [loadSong]: with an array buffer as the only
    source and the audio context set, [play] emits the load-file event,
    runs [loadSong] on the bytes it was given, and initialises playback
    when that returned [true]. *)
Lemma play_load_step
      (env : environment) (size fmt : Z) (input : source_input)
      (ctx : option Host.AudioContext) (data : list Z) (w w2 : world) :
  arrayBuffer input = Some data ->
  JS.truthy_string (url input) = false ->
  initAudioContext env ctx (snd (stop env w)) = (Ok true, w2) ->
  play env size fmt input ctx w
  = let w3 :=
      log (Sink (emitLoadFile
                   ([Text "Loading"] ++ formatMidiName (name input)
                      ++ [Text "..."]))) w2 in
    match loadSong env size fmt data w3 with
    | (Ok true, w4) => initPlayback env size w4
    | (Ok false, w4) => (Ok JS.VUndefined, w4)
    | (Throw e, w4) => (Throw e, w4)
    end.
Proof.
  intros Hb Hu Hinit.
  unfold play, bind at 1.
  destruct (stop_returns env w) as [b [w1 Hs]].
  rewrite Hs in *. cbn [snd] in Hinit.
  unfold bind at 1. rewrite Hinit. cbn [negb].
  unfold bind at 1, isSourceValid. rewrite Hb, Hu.
  unfold ret at 1. cbn [negb].
  unfold bind at 1, emit. unfold bind at 1, getSource, ret at 1.
  cbn zeta.
  unfold bind.
  destruct (loadSong env size fmt data _) as [[[|]|e] w4]; reflexivity.
Qed.

(** ** A rejected patch does not stop the load *)

Lemma patch_loop_returns (env : environment) (left : nat) (i : Z) (w : world) :
  engine_answers env ->
  exists r w', patch_loop env left i w = (Ok r, w').
Proof.
  intros [_ [Hs _]]. revert i w.
  induction left as [|k IH]; intros i w; simpl.
  - unfold ret. eauto.
  - unfold bind at 1, gets. unfold bind at 1, call_string.
    destruct (engine_string env (trace w) _) eqn:Hm;
      [|exfalso; exact (Hs _ _ Hm)].
    unfold bind at 1, gets. unfold bind at 1, try, bind at 1, call_void.
    cbn [this trace log].
    destruct (succeeds env _ (LoadPatchFromUrl _ _)).
    + unfold ret at 1. apply IH.
    + unfold bind, emit, ret. eauto.
Qed.

Lemma getInstrumentPatches_returns (env : environment) (w : world) :
  engine_answers env ->
  exists r w', getInstrumentPatches env w = (Ok r, w').
Proof.
  intros Ha. pose proof Ha as [Hn _].
  unfold getInstrumentPatches, bind at 1, gets.
  unfold bind at 1, call_number.
  destruct (engine_number env (trace w) _) as [n|] eqn:Hq;
    [|exfalso; exact (Hn _ _ Hq)].
  destruct (0 <? n).
  - unfold bind, emit. apply patch_loop_returns. exact Ha.
  - unfold ret. eauto.
Qed.

Lemma handleStream_returns (env : environment) (size fmt : Z)
      (data : list Z) (w : world) :
  engine_answers env ->
  midiFileArray (this w) = Some data ->
  exists options w',
    handleStream env size fmt w = (Ok options, w')
    /\ midiFileArray (this w') = Some data.
Proof.
  intros [Hn [_ Hw]] Hd.
  unfold handleStream, bind, defined, gets, modify, call_number, call_void,
    ret.
  rewrite Hd. cbn [this trace log].
  repeat match goal with
         | |- context [engine_number ?e ?t ?a] =>
             let Hq := fresh "Hq" in
             destruct (engine_number e t a) eqn:Hq;
             [cbn [this trace log]|exfalso; exact (Hn _ _ Hq)]
         | |- context [succeeds ?e ?t (WriteArrayToMemory ?d ?b)] =>
             rewrite (Hw t d b); cbn [this trace log]
         end.
  do 2 eexists. split; [reflexivity|]. cbn. exact Hd.
Qed.

(** Whether or not a patch fetch was rejected, [loadSong] reports success
    as soon as the engine answers its calls: the [false] that
    [getInstrumentPatches] returns after a rejected fetch is not looked
    at. *)
Lemma loadSong_succeeds_whatever_the_patches
      (env : environment) (size fmt : Z) (data : list Z) (w : world) :
  engine_answers env ->
  fst (loadSong env size fmt data w) = Ok true.
Proof.
  intros Ha. pose proof Ha as [Hn _].
  unfold loadSong, try, bind at 1, modify.
  set (w0 := {| this := set_midiFileArray (Some data) (this w);
                trace := trace w |}).
  unfold bind at 1.
  destruct (handleStream_returns env size fmt data w0 Ha eq_refl)
    as [options [w1 [Hh Hd1]]].
  rewrite Hh. unfold bind at 1.
  destruct (getInstrumentPatches_returns env w1 Ha) as [r [w2 Hg]].
  pose proof (getInstrumentPatches_keeps env midiFileArray w1) as Hk.
  rewrite Hg in *. cbn [snd] in Hk. rewrite Hd1 in Hk.
  unfold bind, gets, defined, modify, call_number, ret.
  rewrite Hk. cbn [this trace log].
  repeat match goal with
         | |- context [engine_number ?e ?t ?a] =>
             let Hq := fresh "Hq" in
             destruct (engine_number e t a) eqn:Hq;
             [cbn [this trace log]|exfalso; exact (Hn _ _ Hq)]
         end.
  reflexivity.
Qed.

(** [initPlayback] begins with the call that starts the song. *)
Lemma initPlayback_starts_song (env : environment) (size : Z) (w : world) :
  exists rest,
    trace (snd (initPlayback env size w))
    = trace w ++ Call "mid_song_start" [arg_of (song (this w))] :: rest.
Proof.
  unfold initPlayback, bind at 1, gets. unfold bind at 1, call_void.
  destruct (succeeds env (trace w) _).
  - match goal with |- context [snd (bind ?c ?k ?w0)] =>
      assert (Hk : only (fun _ => true) (bind c k))
    end.
    { unfold connectSource, createGainNode. frame. }
    match goal with |- context [snd (?k ?w0)] =>
      destruct (Hk w0) as [l [Hl _]] end.
    exists l. rewrite Hl. cbn [log this trace].
    rewrite <- app_assoc. reflexivity.
  - exists []. reflexivity.
Qed.

(** So a [play()] from an array buffer starts the song whenever the engine
    answers its calls, whether or not a patch fetch was rejected on the
    way. *)
Lemma play_starts_song_whatever_the_patches
      (env : environment) (size fmt : Z) (input : source_input)
      (ctx : option Host.AudioContext) (data : list Z) (w w2 : world) :
  engine_answers env ->
  arrayBuffer input = Some data ->
  JS.truthy_string (url input) = false ->
  initAudioContext env ctx (snd (stop env w)) = (Ok true, w2) ->
  exists w4 rest,
    trace (snd (play env size fmt input ctx w))
    = trace w4 ++ Call "mid_song_start" [arg_of (song (this w4))] :: rest.
Proof.
  intros Ha Hb Hu Hinit.
  rewrite (play_load_step env size fmt input ctx data w w2 Hb Hu Hinit).
  cbn zeta.
  match goal with |- context [loadSong env size fmt data ?w3] =>
    pose proof (loadSong_succeeds_whatever_the_patches env size fmt data w3
                  Ha) as Hl;
    destruct (loadSong env size fmt data w3) as [r w4]
  end.
  cbn [fst] in Hl. subst r.
  destruct (initPlayback_starts_song env size w4) as [rest Hr].
  exists w4, rest. exact Hr.
Qed.

(** ** play with an invalid source *)

Lemma isSourceValid_invalid (input : source_input) (ev : event) (w : world) :
  invalid_source input = Some ev ->
  isSourceValid (arrayBuffer input) (url input) w
  = (Ok false, log (Sink ev) w).
Proof.
  unfold invalid_source, isSourceValid.
  destruct (arrayBuffer input), (JS.truthy_string (url input));
    intros H; inversion H; reflexivity.
Qed.

Lemma initAudioContext_ok (env : environment)
      (ctx : option Host.AudioContext) (w w' : world) :
  initAudioContext env ctx w = (Ok true, w') ->
  trace w'
  = trace w ++ match ctx with
               | Some _ => []
               | None => [NewAudioContext]
               end.
Proof.
  unfold initAudioContext, try, bind, construct_context, modify, emit, ret.
  destruct ctx as [c|]; cbn [this trace log].
  - intros H; inversion H; subst. cbn. rewrite app_nil_r. reflexivity.
  - destruct (host_context env (trace w)); cbn [this trace log];
      intros H; inversion H; subst. reflexivity.
Qed.

Lemma stop_no_network_call (env : environment) :
  only (fun a => negb (is_network_call a)) (stop env).
Proof.
  unfold stop, freeMemory, disconnectSource. frame.
Qed.

(** What [play] is when the source is refused: its initial [stop], the
    set-up of the audio context, and the one error event. *)
Lemma play_refused
      (env : environment) (size fmt : Z) (input : source_input)
      (ctx : option Host.AudioContext) (w : world) (ev : event) :
  invalid_source input = Some ev ->
  let w1 := snd (stop env w) in
  exists p,
    play env size fmt input ctx w
    = (Ok (JS.VBool false),
       {| this := p;
          trace := trace w1
                     ++ invalid_play_tail ctx (host_context env (trace w1))
                          ev |}).
Proof.
  intros Hinv. cbn zeta.
  unfold play, bind at 1.
  destruct (stop_returns env w) as [b [w1 Hs]]. rewrite Hs. cbn [snd].
  unfold bind at 1, initAudioContext, try, bind at 1, construct_context.
  destruct ctx as [c0|].
  - unfold ret at 1. unfold bind at 1 2, modify, ret at 1. cbn [negb].
    unfold bind at 1.
    rewrite (isSourceValid_invalid input ev _ Hinv). cbn [negb].
    unfold ret, log. cbn [fst snd this trace invalid_play_tail].
    eexists; reflexivity.
  - destruct (host_context env (trace w1)) as [c|].
    + unfold bind at 1 2, modify, ret at 1. cbn [negb].
      unfold bind at 1.
      rewrite (isSourceValid_invalid input ev _ Hinv). cbn [negb].
      unfold ret, log. cbn [fst snd this trace invalid_play_tail].
      rewrite <- app_assoc. eexists; reflexivity.
    + unfold bind, emit, ret, log, context_error.
      cbn [negb fst snd this trace invalid_play_tail].
      rewrite <- app_assoc. eexists; reflexivity.
Qed.

(** C7, as the code has it.  For every [play()] whose input has both a
    URL and an array buffer, or neither, in every state: [play] returns
    [false] and makes no network request.  Its calls are those of the
    [stop()] it begins with, then the creation of the audio context if
    none was passed, then exactly one error event: "ambiguous source" when
    an array buffer is present and "unknown source" when it is not, or
    "Could not set AudioContext." when no context could be created.  Its
    engine calls are those of that [stop()], and its error events are
    those of that [stop()] and this one.  When no output stage was live,
    the [stop()] adds only its stop event, so the invocation makes no
    engine call and emits exactly one error event. *)
Theorem play_invalid_source
        (env : environment) (size fmt : Z) (input : source_input)
        (ctx : option Host.AudioContext) (w : world) (ev : event) :
  invalid_source input = Some ev ->
  let w1 := snd (stop env w) in
  let w' := snd (play env size fmt input ctx w) in
  let tail := invalid_play_tail ctx (host_context env (trace w1)) ev in
  fst (play env size fmt input ctx w) = Ok (JS.VBool false)
  /\ count is_network_call (added w w') = 0%nat
  /\ ev = match arrayBuffer input with
          | Some _ => ambiguous_source
          | None => unknown_source
          end
  /\ added w w' = added w w1 ++ tail
  /\ filter is_engine_call (added w w') = filter is_engine_call (added w w1)
  /\ filter is_error_event (added w w')
     = filter is_error_event (added w w1) ++ [last tail (Sink ev)]
  /\ (source (this w) = None ->
      added w w1 = [Sink emitStop]
      /\ count is_engine_call (added w w') = 0%nat
      /\ count is_error_event (added w w') = 1%nat).
Proof.
  intros Hinv w1 w' tail.
  assert (Hev : ev = match arrayBuffer input with
                     | Some _ => ambiguous_source
                     | None => unknown_source
                     end).
  { unfold invalid_source in Hinv.
    destruct (arrayBuffer input), (JS.truthy_string (url input));
      inversion Hinv; reflexivity. }
  destruct (play_refused env size fmt input ctx w ev Hinv) as [p Hp].
  fold w1 in Hp. fold tail in Hp.
  assert (Hret : fst (play env size fmt input ctx w) = Ok (JS.VBool false))
    by (rewrite Hp; reflexivity).
  assert (Htr : trace w' = trace w1 ++ tail)
    by (subst w'; rewrite Hp; reflexivity).
  destruct (stop_no_network_call env w) as [l [Hl Pl]]. fold w1 in Hl.
  assert (H1 : added w w1 = l) by (apply added_app; exact Hl).
  assert (H' : added w w' = l ++ tail)
    by (apply added_app; rewrite Htr, Hl, <- app_assoc; reflexivity).
  assert (Htail : filter is_network_call tail = []
                  /\ filter is_engine_call tail = []
                  /\ filter is_error_event tail = [last tail (Sink ev)]).
  { subst tail. rewrite Hev.
    destruct ctx, (host_context env (trace w1)), (arrayBuffer input);
      repeat split. }
  destruct Htail as [Tn [Te Tr]].
  split; [exact Hret|]. split.
  { rewrite H'. unfold count.
    rewrite filter_app, (filter_none _ _ Pl), Tn. reflexivity. }
  split; [exact Hev|]. rewrite H', H1.
  split; [reflexivity|].
  split; [rewrite filter_app, Te, app_nil_r; reflexivity|].
  split; [rewrite filter_app, Tr; reflexivity|].
  intros Hsrc.
  assert (Hl1 : added w w1 = [Sink emitStop]).
  { apply added_app. subst w1.
    rewrite (stop_idle env w Hsrc). reflexivity. }
  assert (Hl2 : l = [Sink emitStop]) by (rewrite <- H1; exact Hl1).
  rewrite Hl2. split; [reflexivity|].
  unfold count. rewrite !filter_app, Te, Tr. split; reflexivity.
Qed.

(** ** Concrete runs *)

(** C7, as stated, fails.  On an instance that is playing, [play()]
    without a URL and without an array buffer returns [false] and emits the
    "unknown source" error, but its initial [stop()] has released the two
    buffers and the song and shut the engine down.  And on a host that
    cannot create an audio context, the one error event of such a call is
    "Could not set AudioContext.", not "unknown source".  And when the
    release of the live session breaks off, such a call emits two error
    events, that of [stop()] and that of the source. *)
Lemma play_without_source_releases_live_session :
  (let env := engine 0 16 None in
   let w := playing env in
   let w' := snd (play env buffer_size s16lsb from_nothing None w) in
   fst (play env buffer_size s16lsb from_nothing None w)
   = Ok (JS.VBool false)
   /\ filter is_error_event (added w w') = [Sink unknown_source]
   /\ filter is_engine_call (added w w')
      = [Free (waveBuffer (this w)); Free (midiFileBuffer (this w));
         Call "mid_song_free" [arg_of (song (this w))]; Call "mid_exit" []]
   /\ count is_engine_call (added w w') <> 0%nat)
  /\ (let env := without_audio (engine 0 16 None) in
      let w := fresh env in
      let w' := snd (play env buffer_size s16lsb from_nothing None w) in
      filter is_error_event (added w w')
      = [Sink (emitError [Text "Could not set AudioContext."]
                 (Some (Caught CollaboratorError)))]
      /\ filter is_error_event (added w w') <> [Sink unknown_source])
  /\ (let env := failing is_free (engine 0 16 None) in
      let w := playing (engine 0 16 None) in
      let w' := snd (play env buffer_size s16lsb from_nothing None w) in
      filter is_error_event (added w w')
      = [stop_error CollaboratorError; Sink unknown_source]
      /\ count is_error_event (added w w') <> 1%nat).
Proof.
  vm_compute. repeat split; discriminate.
Qed.


(** C1.  The engine reports three missing patches and the fetch of the
    second one (index 1) is rejected.  The fetches attempted are those of
    indices 0 and 1, in that order, and none for index 2; [loadSong]
    nevertheless reloads the song and returns [true], and [play] goes on to
    start the song and to initialise playback. *)
Theorem play_starts_song_after_patch_failure :
  let env := engine 3 16 (Some (patch_name 1)) in
  let w := fresh env in
  let w' := snd (play env buffer_size s16lsb from_buffer None w) in
  patch_attempts (added w w') = [patch_name 0; patch_name 1]
  /\ filter is_error_event (added w w')
     = [Sink (emitError (could_not_retrieve_patch (patch_name 1) 1)
                (Some (Caught CollaboratorError)))]
  /\ filter is_song_start (added w w')
     = [Call "mid_song_start" [arg_of (song (this w'))]]
  /\ In (Sink (emitPlay 0)) (added w w')
  /\ source (this w') = Some {| Host.bufferSize := buffer_size |}.
Proof.
  vm_compute. repeat split. tauto.
Qed.

(** C2.  On a new instance, before any [play()], there is no gain node:
    [setVolume({ volume: 50 })] stores the volume and then throws a
    [TypeError] to its caller, with no error event. *)
Theorem setVolume_throws_without_gain_node :
  let w := fresh (engine 0 16 None) in
  gainNode (this w) = None
  /\ setVolume (JS.VNum (JS.Fin 50)) w
     = (Throw TypeError,
        {| this := set_volume (JS.VNum (JS.Fin 50)) (this w);
           trace := trace w |}).
Proof.
  vm_compute. split; reflexivity.
Qed.

Lemma engine_reliable (missing wave : Z) : reliable (engine missing wave None).
Proof. intros tr a. destruct a; reflexivity. Qed.

(** ** The theorems at concrete instances *)

Lemma handleOutput_samples_witness :
  let env := engine 0 3 None in
  let w := later (playing env) in
  let out := [1; 1; 1; 1; 1]%Q in
  (context (this w)
   = Some {| Host.sampleRate := 44100; Host.currentTime := 1 # 4 |}
   /\ waveBuffer (this w) = Some 4264
   /\ produced env buffer_size w = Some 3
   /\ 0 < 3)
  /\ exists out' w',
       handleOutput env buffer_size out w = (Ok out', w')
       /\ length out' = length out
       /\ forall i, 0 <= i < buffer_size -> (Z.to_nat i < length out)%nat ->
            let s := getValue_i16 (memory env (trace w')) (4264 + 2 * i) in
            -32768 <= s <= 32767
            /\ nth (Z.to_nat i) out' 0%Q
               = (if i <? 3 then inject_Z s / 32767 else 0)%Q
            /\ (-32768 # 32767 <= nth (Z.to_nat i) out' 0 <= 1)%Q.
Proof.
  intros env w out.
  split.
  - repeat split; vm_compute; reflexivity.
  - apply (handleOutput_samples env buffer_size w out
             {| Host.sampleRate := 44100; Host.currentTime := 1 # 4 |}
             4264 3); vm_compute; reflexivity.
Defined.

Lemma loadSong_two_cycles_witness :
  let env := engine 2 16 None in
  let w := ready env in
  let w' := snd (loadSong env buffer_size s16lsb midi_bytes w) in
  loadSong env buffer_size s16lsb midi_bytes w = (Ok true, w')
  /\ exists buffer s1 s2 options sg rest,
       added w w'
       = first_cycle midi_bytes (sampleRate (this w)) s16lsb buffer_size
           buffer s1 options
           ++ (Call "mid_song_get_num_missing_instruments" [ANum sg] :: rest)
           ++ second_cycle midi_bytes buffer s2 options
       /\ filter is_cycle_call rest = []
       /\ count is_cycle_call (added w w') = 6%nat.
Proof.
  intros env w w'.
  assert (H : loadSong env buffer_size s16lsb midi_bytes w = (Ok true, w'))
    by (vm_compute; reflexivity).
  split.
  - exact H.
  - exact (loadSong_two_cycles env buffer_size s16lsb midi_bytes w w' H).
Defined.


Lemma stop_without_session_witness :
  let env := engine 0 0 None in
  let w := fresh env in
  source (this w) = None
  /\ exists w',
       stop env w = (Ok true, w')
       /\ added w w' = [Sink emitStop]
       /\ count is_engine_call (added w w') = 0%nat.
Proof.
  intros env w.
  split.
  - reflexivity.
  - apply (stop_without_session env w). reflexivity.
Defined.

Lemma play_invalid_source_witness :
  let env := engine 0 16 None in
  let w := playing env in
  let w1 := snd (stop env w) in
  let w' := snd (play env buffer_size s16lsb from_both None w) in
  invalid_source from_both = Some ambiguous_source
  /\ fst (play env buffer_size s16lsb from_both None w) = Ok (JS.VBool false)
  /\ count is_network_call (added w w') = 0%nat
  /\ added w w' = added w w1 ++ [NewAudioContext; Sink ambiguous_source]
  /\ filter is_engine_call (added w w') = filter is_engine_call (added w w1)
  /\ filter is_error_event (added w w') = [Sink ambiguous_source].
Proof.
  intros env w w1 w'.
  assert (Hi : invalid_source from_both = Some ambiguous_source)
    by reflexivity.
  split; [exact Hi|].
  destruct (play_invalid_source env buffer_size s16lsb from_both None w
              ambiguous_source Hi) as [Hrun [Hnet [_ [Hadd [Heng [Herr _]]]]]].
  split; [exact Hrun|]. split; [exact Hnet|].
  split; [exact Hadd|]. split; [exact Heng|].
  etransitivity; [exact Herr|]. vm_compute. reflexivity.
Defined.


Lemma pause_resume_report_witness :
  let env := engine 0 16 None in
  let w := fresh env in
  context (this w) = None
  /\ pause env w = (Ok true, log (Sink (emitPause 0)) w)
  /\ resume env w = (Ok true, log (Sink (emitResume 0)) w).
Proof.
  intros env w.
  split.
  - reflexivity.
  - apply (proj1 (pause_resume_report env w)). reflexivity.
Defined.

Lemma setVolume_keeps_argument_witness :
  let env := engine 0 0 None in
  let w := playing env in
  let w' := snd (setVolume (JS.VStr "50") w) in
  let ops := [Pause; Resume; AudioProcess [1; 1]%Q; Stop;
              Play from_buffer None] in
  JS.isNaN (JS.parseFloat (JS.VStr "50")) = false
  /\ getVolume w' = (Ok (JS.VStr "50"), w')
  /\ fst (getVolume (perform_all env buffer_size s16lsb ops w'))
     = Ok (JS.VStr "50")
  /\ fst (setVolume (JS.VStr "50") w) = Ok tt
  /\ gainNode (this w') = Some {| Host.gain := JS.Fin (1 # 2) |}.
Proof.
  intros env w w' ops.
  split; [reflexivity|].
  destruct (setVolume_keeps_argument env buffer_size s16lsb
              (JS.VStr "50") w eq_refl) as [Hg [Hl Hn]].
  split; [exact Hg|].
  split; [exact (Hl ops)|].
  exact (Hn {| Host.gain := JS.Fin (4 # 5) |} eq_refl).
Defined.

(** * Further properties of the controller *)

(** ** stop, in full *)

(** Brings the trace of a finished run into the form [trace w ++ l]. *)
Ltac added_by_trace :=
  erewrite added_app
    by (cbn [this trace log]; rewrite <- ?app_assoc; reflexivity).

(** Splits on every answer of a procedure that the goal depends on. *)
Ltac split_on_procedures :=
  repeat match goal with
         | |- context [succeeds ?e ?t ?a] =>
             destruct (succeeds e t a) eqn:?; cbn [this trace log fst snd]
         end.

(** X1.  A live session is released in a fixed order: the context is closed,
    the stage disconnected, the scratch buffer and the MIDI buffer freed,
    the song freed, the engine shut down, and then the stop event is
    emitted.  Afterwards there is no output stage, the song handle is 0 and
    the start time is 0; the context, the gain node and the two buffer
    fields stay as they were. *)
Theorem stop_releases_live_session
        (env : environment) (w : world)
        (s : Host.ScriptProcessorNode) (c : Host.AudioContext) :
  reliable env ->
  source (this w) = Some s ->
  context (this w) = Some c ->
  exists w',
    stop env w = (Ok true, w')
    /\ added w w' = release_calls (this w)
    /\ this w'
       = set_startTime 0 (set_song (Some 0) (set_source None (this w))).
Proof.
  intros Hr Hs Hc.
  unfold stop, freeMemory, disconnectSource, try, bind, gets, defined,
    call_void, modify, emit, ret.
  rewrite Hs. cbn [this trace log].
  repeat (first [rewrite Hr | rewrite Hc | rewrite Hs];
          cbn [this trace log fst snd]).
  eexists. split; [reflexivity|]. split.
  - added_by_trace. reflexivity.
  - reflexivity.
Qed.

(** X2.  [stop] never throws, and its result tells what happened.  When it
    returns [true] there is no output stage left, the start time is 0, no
    error event was emitted and the stop event is the last call.  When it
    returns [false] it has emitted exactly one error event, as its last
    call, and no stop event; the start time is not reset. *)
Theorem stop_result (env : environment) (w : world) :
  exists b w',
    stop env w = (Ok b, w')
    /\ if b
       then source (this w') = None
            /\ startTime (this w') = 0%Q
            /\ filter is_error_event (added w w') = []
            /\ last (added w w') (Sink emitInit) = Sink emitStop
       else startTime (this w') = startTime (this w)
            /\ filter is_stop_event (added w w') = []
            /\ exists e,
                 filter is_error_event (added w w') = [stop_error e]
                 /\ last (added w w') (Sink emitInit) = stop_error e.
Proof.
  unfold stop, freeMemory, disconnectSource, try, bind, gets, defined,
    call_void, modify, emit, ret, stop_error.
  destruct (source (this w)) as [s|] eqn:Hs; cbn [this trace log].
  - destruct (context (this w)) as [c|] eqn:Hc; cbn [this trace log].
    + split_on_procedures; try rewrite Hs; cbn [this trace log fst snd];
        split_on_procedures;
        eexists; eexists; (split; [reflexivity|]); cbn beta iota;
        added_by_trace; repeat split;
        exists CollaboratorError; repeat split.
    + exists false. eexists. split; [reflexivity|].
      added_by_trace. repeat split. exists TypeError. repeat split.
  - exists true. eexists. split; [reflexivity|].
    added_by_trace. repeat split. exact Hs.
Qed.

(** X3.  [stop] never writes the context, the gain node, the two buffer fields,
    the MIDI bytes, the volume or the patch location: after it the context
    is still there (closed) and the buffer fields still hold the freed
    addresses. *)
Theorem stop_leaves_fields (env : environment) (w : world) :
  let w' := snd (stop env w) in
  context (this w') = context (this w)
  /\ gainNode (this w') = gainNode (this w)
  /\ waveBuffer (this w') = waveBuffer (this w)
  /\ midiFileBuffer (this w') = midiFileBuffer (this w)
  /\ midiFileArray (this w') = midiFileArray (this w)
  /\ volume (this w') = volume (this w)
  /\ patchUrl (this w') = patchUrl (this w).
Proof.
  assert (H : forall {C : Type} (f : player -> C),
             (forall v p, f (set_source v p) = f p) ->
             (forall v p, f (set_song v p) = f p) ->
             (forall v p, f (set_startTime v p) = f p) ->
             keeps f (stop env)).
  { intros C f H1 H2 H3.
    unfold stop, freeMemory, disconnectSource.
    repeat match goal with
           | |- keeps _ (modify (set_source _)) =>
               apply keeps_modify; intro; apply H1
           | |- keeps _ (modify (set_song _)) =>
               apply keeps_modify; intro; apply H2
           | |- keeps _ (modify (set_startTime _)) =>
               apply keeps_modify; intro; apply H3
           | _ => frame_step
           end. }
  cbn zeta. repeat split; apply H; intros v []; reflexivity.
Qed.


(** ** The audio context and the source *)


(** X7.  [isSourceValid] accepts exactly the inputs with one source: an array
    buffer, or a URL that is a non-empty string, but not both.  It makes
    no call when it accepts, emits exactly one error event when it
    refuses, and never touches the instance.  An empty URL counts as no
    URL. *)
Theorem isSourceValid_exactly_one
        (buffer : option (list Z)) (u : option string) (w : world) :
  let has_buffer := match buffer with Some _ => true | None => false end in
  let has_url := match u with
                 | Some s => negb (String.eqb s EmptyString)
                 | None => false
                 end in
  exists w',
    isSourceValid buffer u w = (Ok (xorb has_buffer has_url), w')
    /\ this w' = this w
    /\ added w w'
       = if xorb has_buffer has_url then []
         else if has_buffer then [Sink ambiguous_source]
              else [Sink unknown_source].
Proof.
  unfold isSourceValid, JS.truthy_string, bind, emit, ret.
  destruct buffer as [b|], u as [[|ch r]|]; cbn;
    eexists; (split; [reflexivity|]); (split; [reflexivity|]);
    apply added_app; cbn; rewrite ?app_nil_r; reflexivity.
Qed.

(** X8.  [getSource] with an array buffer returns it and makes no call.
    Without one it fetches the URL, and then: status 200 gives the body of
    the response; any other status, or a rejected fetch, gives one error
    event and a falsy result, and the body is not read. *)
Theorem getSource_result
        (env : environment) (buffer : option (list Z)) (u : option string)
        (w : world) :
  let w' := snd (getSource env buffer u w) in
  match buffer with
  | Some data => getSource env buffer u w = (Ok (Some data), w)
  | None =>
      match fetch_status env (trace w) (Fetch u) with
      | Some status =>
          if status =? 200 then
            added w w' = [Fetch u; ResponseArrayBuffer]
            /\ fst (getSource env buffer u w)
               = match fetch_body env (trace w ++ [Fetch u])
                         ResponseArrayBuffer with
                 | Some data => Ok (Some data)
                 | None => Throw CollaboratorError
                 end
          else
            fst (getSource env buffer u w) = Ok None
            /\ filter is_network_call (added w w') = [Fetch u]
            /\ count is_error_event (added w w') = 1%nat
      | None =>
          fst (getSource env buffer u w) = Ok None
          /\ filter is_network_call (added w w') = [Fetch u]
          /\ count is_error_event (added w w') = 1%nat
      end
      /\ this w' = this w
  end.
Proof.
  unfold getSource, try, bind, call_fetch, call_arrayBuffer, emit, ret.
  destruct buffer as [data|]; [reflexivity|].
  destruct (fetch_status env (trace w) (Fetch u)) as [status|];
    cbn [this trace log fst snd].
  - destruct (status =? 200); cbn [negb this trace log fst snd].
    + destruct (fetch_body env (trace w ++ [Fetch u]) ResponseArrayBuffer);
        cbn [this trace log fst snd]; added_by_trace; repeat split.
    + added_by_trace. repeat split.
  - added_by_trace. repeat split.
Qed.

(** ** play from a URL *)

Lemma play_fetch_step
      (env : environment) (size fmt : Z) (input : source_input)
      (ctx : option Host.AudioContext) (w w2 : world) :
  arrayBuffer input = None ->
  JS.truthy_string (url input) = true ->
  initAudioContext env ctx (snd (stop env w)) = (Ok true, w2) ->
  play env size fmt input ctx w
  = let w3 :=
      log (Sink (emitLoadFile
                   ([Text "Loading"] ++ formatMidiName (name input)
                      ++ [Text "..."]))) w2 in
    match getSource env None (url input) w3 with
    | (Ok (Some data), w4) =>
        match loadSong env size fmt data w4 with
        | (Ok true, w5) => initPlayback env size w5
        | (Ok false, w5) => (Ok JS.VUndefined, w5)
        | (Throw e, w5) => (Throw e, w5)
        end
    | (Ok None, w4) => (Ok (JS.VBool false), w4)
    | (Throw e, w4) => (Throw e, w4)
    end.
Proof.
  intros Hb Hu Hinit.
  unfold play, bind at 1.
  destruct (stop_returns env w) as [b [w1 Hs]].
  rewrite Hs in *. cbn [snd] in Hinit.
  unfold bind at 1. rewrite Hinit. cbn [negb].
  unfold bind at 1, isSourceValid. rewrite Hb, Hu.
  unfold ret at 1. cbn [negb].
  unfold bind at 1, emit. cbn zeta. unfold bind at 1.
  destruct (getSource env None (url input) _) as [[[data|]|e] w4];
    try reflexivity.
  unfold bind.
  destruct (loadSong env size fmt data w4) as [[[|]|e] w5]; reflexivity.
Qed.

(** X9.  When the MIDI file cannot be fetched (the fetch is rejected, or the
    status is not 200), [play] returns [false]: after the audio context is
    set it emits the load-file event, makes the one fetch and emits one
    error event; the body is not read, the engine is not called and the
    instance is not changed. *)
Theorem play_fetch_failure
        (env : environment) (size fmt : Z) (input : source_input)
        (ctx : option Host.AudioContext) (w w2 : world) :
  arrayBuffer input = None ->
  JS.truthy_string (url input) = true ->
  initAudioContext env ctx (snd (stop env w)) = (Ok true, w2) ->
  let loading :=
    Sink (emitLoadFile
            ([Text "Loading"] ++ formatMidiName (name input)
               ++ [Text "..."])) in
  fetch_status env (trace w2 ++ [loading]) (Fetch (url input)) <> Some 200 ->
  let w' := snd (play env size fmt input ctx w) in
  fst (play env size fmt input ctx w) = Ok (JS.VBool false)
  /\ (exists ev,
        added w2 w' = [loading; Fetch (url input); ev]
        /\ is_error_event ev = true)
  /\ this w' = this w2.
Proof.
  intros Hb Hu Hinit loading Hst.
  rewrite (play_fetch_step env size fmt input ctx w w2 Hb Hu Hinit).
  cbn zeta. fold loading.
  unfold getSource, try, bind, call_fetch, call_arrayBuffer, emit, ret.
  cbn [this trace log] in *.
  destruct (fetch_status env (trace w2 ++ [loading]) (Fetch (url input)))
    as [status|]; cbn [this trace log fst snd].
  - destruct (Z.eqb_spec status 200) as [->|Hne]; [congruence|].
    cbn [negb this trace log fst snd].
    split; [reflexivity|]. split; [|reflexivity].
    eexists. split; [added_by_trace; reflexivity|reflexivity].
  - split; [reflexivity|]. split; [|reflexivity].
    eexists. split; [added_by_trace; reflexivity|reflexivity].
Qed.

(** X10.  When the fetch answers with status 200 but the body of the response
    cannot be read, the rejection is not caught: [play] throws (its promise
    rejects) and no error event is emitted for it. *)
Theorem play_body_rejection_escapes
        (env : environment) (size fmt : Z) (input : source_input)
        (ctx : option Host.AudioContext) (w w2 : world) :
  arrayBuffer input = None ->
  JS.truthy_string (url input) = true ->
  initAudioContext env ctx (snd (stop env w)) = (Ok true, w2) ->
  let loading :=
    Sink (emitLoadFile
            ([Text "Loading"] ++ formatMidiName (name input)
               ++ [Text "..."])) in
  fetch_status env (trace w2 ++ [loading]) (Fetch (url input)) = Some 200 ->
  fetch_body env ((trace w2 ++ [loading]) ++ [Fetch (url input)])
    ResponseArrayBuffer = None ->
  let w' := snd (play env size fmt input ctx w) in
  fst (play env size fmt input ctx w) = Throw CollaboratorError
  /\ added w2 w' = [loading; Fetch (url input); ResponseArrayBuffer]
  /\ this w' = this w2.
Proof.
  intros Hb Hu Hinit loading Hst Hbody.
  rewrite (play_fetch_step env size fmt input ctx w w2 Hb Hu Hinit).
  cbn zeta. fold loading.
  unfold getSource, try, bind, call_fetch, call_arrayBuffer, emit, ret.
  cbn [this trace log] in *.
  rewrite Hst. cbn [Z.eqb Pos.eqb negb this trace log fst snd].
  rewrite Hbody. cbn [this trace log fst snd].
  split; [reflexivity|]. split; [|reflexivity].
  added_by_trace. reflexivity.
Qed.

(** ** Patch resolution *)

Lemma patch_failure_shift (r : JS.value) (i : Z) (p : string)
      (names : list string) :
  (r = JS.VBool false -> names <> []) ->
  patch_failure r (i + 1) names = patch_failure r i (p :: names).
Proof.
  intros H. unfold patch_failure.
  destruct r as [| |[|]| |]; try reflexivity.
  destruct names as [|q rest]; [exfalso; apply H; reflexivity|].
  cbn [last length].
  replace (i + 1 + Z.of_nat (S (length rest)) - 1)
    with (i + Z.of_nat (S (S (length rest))) - 1) by lia.
  reflexivity.
Qed.

Lemma patch_loop_rounds (env : environment) (left : nat) :
  forall (i : Z) (w w' : world) (r : JS.value),
    patch_loop env left i w = (Ok r, w') ->
    exists names,
      trace w'
      = trace w ++ rounds (song (this w)) (patchUrl (this w)) i names
          ++ patch_failure r i names
      /\ this w' = this w
      /\ ((r = JS.VUndefined /\ length names = left)
          \/ (r = JS.VBool false /\ (0 < length names <= left)%nat))
      /\ answered env (song (this w)) (patchUrl (this w)) (trace w) i names
           (is_false r).
Proof.
  induction left as [|k IH]; intros i w w' r H.
  - cbn in H. inversion H; subst. exists []. cbn. rewrite app_nil_r.
    split; [reflexivity|]. split; [reflexivity|]. split; [|exact I].
    left. split; reflexivity.
  - cbn [patch_loop] in H.
    unfold bind at 1, gets in H. unfold bind at 1, call_string in H.
    destruct (engine_string env (trace w) _) as [p|] eqn:Hq; [|discriminate].
    unfold bind at 1, gets in H. unfold bind at 1, try, bind at 1,
      call_void in H.
    cbn [this trace log] in H.
    destruct (succeeds env _ (LoadPatchFromUrl _ _)) eqn:Hf.
    + unfold ret at 1 in H.
      apply IH in H. cbn [this trace log] in H.
      destruct H as [names [Ht [Hthis [Hr Ha]]]].
      assert (Hne : r = JS.VBool false -> names <> []).
      { intros ->. destruct Hr as [[Hr _]|[_ Hr]]; [discriminate|].
        destruct names; [cbn in Hr; lia|discriminate]. }
      exists (p :: names). split; [|split; [|split]].
      * rewrite Ht. cbn [rounds].
        rewrite <- (patch_failure_shift r i p names Hne).
        rewrite <- !app_assoc. reflexivity.
      * exact Hthis.
      * cbn [length]. destruct Hr as [[Hr Hl]|[Hr Hl]]; [left|right];
          split; auto; lia.
      * cbn [answered]. split; [exact Hq|]. split; [|exact Ha].
        rewrite Hf. destruct names as [|q rest]; [|reflexivity].
        destruct r as [| |[|]| |]; try reflexivity.
        exfalso. apply Hne; reflexivity.
    + unfold bind, emit, ret in H. cbn [this trace log] in H.
      inversion H; subst. exists [p]. split; [|split; [|split]].
      * cbn [this trace log rounds patch_failure last length].
        replace (i + Z.of_nat 1 - 1) with i by lia.
        rewrite <- !app_assoc. reflexivity.
      * reflexivity.
      * right. cbn. split; [reflexivity|lia].
      * cbn [answered is_false negb]. auto.
Qed.

(** X11.  Patch resolution asks for the number [n] of missing instruments.
    When [n] is not positive that query is its only call.  Otherwise it
    emits the load-patch event and then, for the indices 0, 1, 2, ... in
    that order, asks the engine for the name of the patch and fetches the
    patch of that name from the patch location of the instance: each name
    fetched is the engine's answer to the query of its index, and every
    fetch but the last was accepted.  The result is [false] exactly when
    the last fetch was rejected, and then one error event names that patch
    and nothing follows; otherwise all [n] indices were gone through and
    the result is [undefined].  The instance is not changed. *)
Theorem getInstrumentPatches_attempts
        (env : environment) (w w' : world) (r : JS.value) :
  getInstrumentPatches env w = (Ok r, w') ->
  let query :=
    Call "mid_song_get_num_missing_instruments" [arg_of (song (this w))] in
  exists n names,
    engine_number env (trace w) query = Some n
    /\ this w' = this w
    /\ if 0 <? n
       then let loading :=
              Sink (emitLoadPatch
                      [Text "Loading ";
                       Interp (JS.VNum (JS.Fin (inject_Z n)));
                       Text " instrument patches..."]) in
            added w w'
            = query :: loading
                :: rounds (song (this w)) (patchUrl (this w)) 0 names
                ++ patch_failure r 0 names
            /\ ((r = JS.VUndefined /\ length names = Z.to_nat n)
                \/ (r = JS.VBool false
                    /\ (0 < length names <= Z.to_nat n)%nat))
            /\ answered env (song (this w)) (patchUrl (this w))
                 ((trace w ++ [query]) ++ [loading]) 0 names (is_false r)
       else added w w' = [query] /\ r = JS.VUndefined /\ names = [].
Proof.
  intros H query.
  unfold getInstrumentPatches, bind at 1, gets in H.
  unfold bind at 1, call_number in H. fold query in H.
  destruct (engine_number env (trace w) query) as [n|]; [|discriminate].
  destruct (0 <? n) eqn:Hn.
  - unfold bind, emit in H.
    apply patch_loop_rounds in H. cbn [this trace log] in H.
    destruct H as [names [Ht [Hthis [Hr Ha]]]].
    exists n, names. rewrite Hn. split; [reflexivity|].
    split; [exact Hthis|]. cbn zeta. split; [|split; [exact Hr|exact Ha]].
    apply added_app. rewrite Ht. rewrite <- !app_assoc. reflexivity.
  - unfold ret in H. inversion H; subst.
    exists n, []. rewrite Hn. split; [reflexivity|].
    split; [reflexivity|]. split; [|auto].
    apply added_app. reflexivity.
Qed.

Lemma patch_loop_only (env : environment) (P : action -> bool)
      (left : nat) (i : Z) :
  accepts_patch_calls P -> only P (patch_loop env left i).
Proof.
  intros [_ [Hq [Hf [_ He]]]]. revert i.
  induction left as [|k IH]; intros i; cbn [patch_loop].
  - frame.
  - repeat match goal with
           | |- only _ (call_string _ _) => apply only_call_string; apply Hq
           | |- only _ (call_void _ _) => apply only_call_void; apply Hf
           | |- only _ (emit _) => apply only_emit; apply He
           | |- only _ (patch_loop _ _ _) => apply IH
           | _ => frame_step
           end.
Qed.

Lemma getInstrumentPatches_only (env : environment) (P : action -> bool) :
  accepts_patch_calls P -> only P (getInstrumentPatches env).
Proof.
  intros HP. pose proof HP as [Hn [_ [_ [Hl _]]]].
  unfold getInstrumentPatches.
  repeat match goal with
         | |- only _ (call_number _ _) => apply only_call_number; apply Hn
         | |- only _ (emit _) => apply only_emit; apply Hl
         | |- only _ (patch_loop _ _ _) => apply patch_loop_only; exact HP
         | _ => frame_step
         end.
Qed.


Lemma not_playback_accepts : accepts_patch_calls not_playback_call.
Proof. repeat split; reflexivity. Qed.

(** ** loadSong *)


(** ** Starting playback *)

(** Reads fields through the setters applied so far. *)
Ltac read_fields :=
  cbn [this trace log fst snd context source gainNode waveBuffer song
       volume startTime set_source set_gainNode set_waveBuffer
       set_startTime set_song].

Ltac split_on_answers :=
  repeat match goal with
         | |- context [succeeds ?e ?t ?a] =>
             destruct (succeeds e t a) eqn:?; read_fields
         | |- context [engine_number ?e ?t ?a] =>
             destruct (engine_number e t a) eqn:?; read_fields
         end.

(** X14.  [initPlayback] starts the song before anything else, outside its
    [try]: when that call throws, [initPlayback] throws and has made no
    other call.  Otherwise it returns [undefined], and its last call is
    either the play event with time 0, with the output stage in place and
    no error event, or the one "Could not initialize playback." error
    event, without any play event. *)
Theorem initPlayback_result (env : environment) (size : Z) (w : world) :
  let start := Call "mid_song_start" [arg_of (song (this w))] in
  let w' := snd (initPlayback env size w) in
  if succeeds env (trace w) start
  then fst (initPlayback env size w) = Ok JS.VUndefined
       /\ ((last (added w w') start = Sink (emitPlay 0)
            /\ filter is_error_event (added w w') = []
            /\ source (this w') <> None
            /\ waveBuffer (this w') <> None)
           \/ (exists e,
                 last (added w w') start = playback_error e
                 /\ filter is_error_event (added w w') = [playback_error e]
                 /\ filter is_play_event (added w w') = []))
  else initPlayback env size w = (Throw CollaboratorError, log start w).
Proof.
  cbn zeta.
  unfold initPlayback, connectSource, createGainNode, try, bind, gets,
    defined, call_void, call_number, modify, emit, ret, playback_error.
  destruct (succeeds env (trace w) _); read_fields; [|reflexivity].
  destruct (context (this w)) as [c|] eqn:Hc; read_fields.
  - repeat (first [ rewrite Hc
                   | match goal with
                     | |- context [succeeds ?e ?t ?a] =>
                         destruct (succeeds e t a) eqn:?
                     | |- context [engine_number ?e ?t ?a] =>
                         destruct (engine_number e t a) eqn:?
                     end ];
            read_fields);
      (split; [reflexivity|]);
      first [ left; added_by_trace; repeat split; discriminate
            | right; exists CollaboratorError; added_by_trace;
              repeat split ].
  - split; [reflexivity|].
    right. exists TypeError. added_by_trace. repeat split.
Qed.

Lemma initPlayback_runs (env : environment) (size : Z) (w : world)
      (c : Host.AudioContext) :
  reliable env ->
  engine_answers env ->
  context (this w) = Some c ->
  exists buffer,
    initPlayback env size w
    = (Ok JS.VUndefined,
       {| this :=
            set_startTime (Host.currentTime c)
              (set_waveBuffer (Some buffer)
                 (set_gainNode
                    (Some {| Host.gain := JS.div100 (volume (this w)) |})
                    (set_source (Some {| Host.bufferSize := size |})
                       (this w))));
          trace := trace w ++ playback_calls (this w) size |}).
Proof.
  intros Hr [Hn _] Hc.
  unfold initPlayback, connectSource, createGainNode, try, bind, gets,
    defined, call_void, call_number, modify, emit, ret.
  read_fields.
  repeat (first [rewrite Hr | rewrite Hc]; read_fields).
  match goal with
  | |- context [engine_number ?e ?t ?a] =>
      destruct (engine_number e t a) as [buffer|] eqn:Hq;
      [|exfalso; exact (Hn _ _ Hq)]
  end.
  read_fields. rewrite Hc.
  exists buffer. unfold playback_calls, log. cbn [this trace].
  rewrite <- !app_assoc. reflexivity.
Qed.

Lemma loadSong_keeps {C : Type} (env : environment) (size fmt : Z)
      (data : list Z) (f : player -> C) :
  (forall v p, f (set_midiFileArray v p) = f p) ->
  (forall v p, f (set_midiFileBuffer v p) = f p) ->
  (forall v p, f (set_stream v p) = f p) ->
  (forall v p, f (set_song v p) = f p) ->
  keeps f (loadSong env size fmt data).
Proof.
  intros H1 H2 H3 H4. unfold loadSong, handleStream.
  repeat match goal with
         | |- keeps _ (modify (set_midiFileArray _)) =>
             apply keeps_modify; intro; apply H1
         | |- keeps _ (modify (set_midiFileBuffer _)) =>
             apply keeps_modify; intro; apply H2
         | |- keeps _ (modify (set_stream _)) =>
             apply keeps_modify; intro; apply H3
         | |- keeps _ (modify (set_song _)) =>
             apply keeps_modify; intro; apply H4
         | |- keeps _ (getInstrumentPatches _) =>
             apply getInstrumentPatches_keeps
         | _ => frame_step
         end.
Qed.

Lemma loadSong_keeps_context (env : environment) (size fmt : Z)
      (data : list Z) :
  keeps context (loadSong env size fmt data).
Proof. apply loadSong_keeps; intros v []; reflexivity. Qed.

Lemma loadSong_keeps_volume (env : environment) (size fmt : Z)
      (data : list Z) :
  keeps volume (loadSong env size fmt data).
Proof. apply loadSong_keeps; intros v []; reflexivity. Qed.

(** A [play()] from an array buffer whose load the engine answers reaches
    [initPlayback] with the context set up at its beginning and with the
    volume it found. *)
Lemma play_reaches_playback
      (env : environment) (size fmt : Z) (input : source_input)
      (ctx : option Host.AudioContext) (data : list Z) (w w2 : world) :
  engine_answers env ->
  arrayBuffer input = Some data ->
  JS.truthy_string (url input) = false ->
  initAudioContext env ctx (snd (stop env w)) = (Ok true, w2) ->
  exists w4 c,
    play env size fmt input ctx w = initPlayback env size w4
    /\ context (this w4) = Some c
    /\ volume (this w4) = volume (this w).
Proof.
  intros Ha Hb Hu Hinit.
  rewrite (play_load_step env size fmt input ctx data w w2 Hb Hu Hinit).
  cbn zeta.
  match goal with |- context [loadSong env size fmt data ?w3] =>
    pose proof (loadSong_succeeds_whatever_the_patches env size fmt data w3
                  Ha) as Hl;
    pose proof (loadSong_keeps_context env size fmt data w3) as Hkc;
    pose proof (loadSong_keeps_volume env size fmt data w3) as Hkv;
    destruct (loadSong env size fmt data w3) as [r w4]
  end.
  cbn [fst snd log this] in *. subst r.
  pose proof (stop_keeps_volume env w) as Hsv.
  revert Hinit.
  unfold initAudioContext, try, bind, construct_context, modify, emit, ret.
  destruct ctx as [c0|]; cbn [this trace log].
  - intros Hinit; inversion Hinit; subst w2; clear Hinit.
    cbn [this context volume set_context set_sampleRate] in *.
    exists w4, c0. split; [reflexivity|]. split; [exact Hkc|].
    rewrite Hkv. destruct (this (snd (stop env w))); exact Hsv.
  - destruct (host_context env _) as [c|]; cbn [this trace log];
      intros Hinit; inversion Hinit; subst w2; clear Hinit.
    cbn [this context volume set_context set_sampleRate] in *.
    exists w4, c. split; [reflexivity|]. split; [exact Hkc|].
    rewrite Hkv. destruct (this (snd (stop env w))); exact Hsv.
Qed.

(** X15.  A [play()] from an array buffer on collaborators that do not fail
    returns [undefined] (not [true]).  Afterwards the output stage of the
    configured chunk size and the scratch buffer exist, the gain is the
    volume stored before the call divided by 100, the start time is the
    clock of the context, and the last call is the play event with time
    0. *)
Theorem play_success
        (env : environment) (size fmt : Z) (input : source_input)
        (ctx : option Host.AudioContext) (data : list Z) (w w2 : world) :
  reliable env ->
  engine_answers env ->
  arrayBuffer input = Some data ->
  JS.truthy_string (url input) = false ->
  initAudioContext env ctx (snd (stop env w)) = (Ok true, w2) ->
  exists c buffer w',
    play env size fmt input ctx w = (Ok JS.VUndefined, w')
    /\ context (this w') = Some c
    /\ source (this w') = Some {| Host.bufferSize := size |}
    /\ waveBuffer (this w') = Some buffer
    /\ gainNode (this w')
       = Some {| Host.gain := JS.div100 (volume (this w)) |}
    /\ startTime (this w') = Host.currentTime c
    /\ last (trace w') (Sink emitInit) = Sink (emitPlay 0).
Proof.
  intros Hr Ha Hb Hu Hinit.
  destruct (play_reaches_playback env size fmt input ctx data w w2
              Ha Hb Hu Hinit) as [w4 [c [Hp [Hc Hv]]]].
  destruct (initPlayback_runs env size w4 c Hr Ha Hc) as [buffer Hi].
  rewrite Hp, Hi, Hv.
  exists c, buffer. eexists. split; [reflexivity|].
  cbn [this trace]. destruct (this w4) eqn:Hw; cbn in *.
  repeat split; try assumption.
  unfold playback_calls.
  match goal with |- last (?t ++ ?a :: ?b :: ?c :: ?d :: ?e :: ?f :: [?g]) _ = _ =>
    change (t ++ a :: b :: c :: d :: e :: f :: [g])
      with (t ++ [a; b; c; d; e; f] ++ [g]);
    rewrite app_assoc; apply last_last
  end.
Qed.

(** X16.  The volume set before playback is the one playback uses: after
    [setVolume({ volume: v })] with a [v] that parses, whether the call
    returned or threw for want of a gain node, a [play()] that succeeds
    creates the gain node with gain [v / 100]. *)
Theorem volume_set_before_play_is_applied
        (env : environment) (size fmt : Z) (input : source_input)
        (ctx : option Host.AudioContext) (data : list Z) (v : JS.value)
        (w w2 : world) :
  numeric v = true ->
  let w1 := snd (setVolume v w) in
  reliable env ->
  engine_answers env ->
  arrayBuffer input = Some data ->
  JS.truthy_string (url input) = false ->
  initAudioContext env ctx (snd (stop env w1)) = (Ok true, w2) ->
  gainNode (this (snd (play env size fmt input ctx w1)))
  = Some {| Host.gain := JS.div100 v |}.
Proof.
  intros Hn w1 Hr Ha Hb Hu Hinit.
  assert (Hv : volume (this w1) = v).
  { subst w1. rewrite (setVolume_accepted v w Hn).
    destruct (gainNode (this w)); reflexivity. }
  destruct (play_reaches_playback env size fmt input ctx data w1 w2
              Ha Hb Hu Hinit) as [w4 [c [Hp [Hc Hv4]]]].
  destruct (initPlayback_runs env size w4 c Hr Ha Hc) as [buffer Hi].
  rewrite Hp, Hi, Hv4, Hv. cbn [snd this].
  destruct (this w4); reflexivity.
Qed.

(** ** What play and preload return *)

Lemma yields_ret {A : Type} (P : A -> Prop) (a : A) : P a -> yields P (ret a).
Proof. intros H w b Hb. inversion Hb; subst. exact H. Qed.

Lemma yields_bind {A B : Type} (P : B -> Prop) (c : M A) (k : A -> M B) :
  (forall a, yields P (k a)) -> yields P (bind c k).
Proof.
  intros Hk w b. unfold bind.
  destruct (c w) as [[a|e] w1]; [apply Hk|discriminate].
Qed.

Ltac yield_step :=
  match goal with
  | |- forall _, _ => intro
  | |- yields _ (bind _ _) => apply yields_bind
  | |- yields _ (ret _) =>
      apply yields_ret; first [left; reflexivity | right; reflexivity]
  | |- yields _ (match ?x with _ => _ end) => destruct x
  end.

Lemma initPlayback_yields (env : environment) (size : Z) :
  yields false_or_undefined (initPlayback env size).
Proof. unfold initPlayback. repeat yield_step. Qed.

(** X17.  Neither [play] nor [preload] ever returns [true]: whenever they
    return, the result is [false] or [undefined]. *)
Theorem play_and_preload_never_return_true
        (env : environment) (size fmt : Z) :
  (forall input ctx, yields false_or_undefined (play env size fmt input ctx))
  /\ (forall items ctx,
        yields false_or_undefined (preload env size fmt items ctx)).
Proof.
  split.
  - intros input ctx. unfold play.
    repeat first [ apply initPlayback_yields | yield_step ].
  - intros items ctx.
    induction items as [|item rest IH]; cbn [preload].
    + repeat yield_step.
    + repeat first [ apply IH | yield_step ].
Qed.

(** ** The audio callback *)

(** X19.  The callback never throws into the host and never resizes the buffer.
    When it fails before any sample is written (no context on the
    instance, or the engine's read throws), it emits one "Could not
    process audio." error event as its last call and returns the buffer as
    it was. *)
Theorem handleOutput_never_throws
        (env : environment) (size : Z) (out : list Q) (w : world) :
  exists out' w',
    handleOutput env size out w = (Ok out', w')
    /\ length out' = length out
    /\ (context (this w) = None ->
        out' = out /\ this w' = this w
        /\ added w w' = [audio_error TypeError])
    /\ (forall c, context (this w) = Some c ->
        produced env size w = None ->
        out' = out /\ this w' = this w
        /\ last (added w w') (Sink emitInit)
           = audio_error CollaboratorError).
Proof.
  unfold handleOutput, try, bind at 1, defined, produced, audio_error.
  destruct (context (this w)) as [c|] eqn:Hc.
  - unfold bind at 1, gets. unfold bind at 1, emit.
    unfold bind at 1, gets. unfold bind at 1, gets.
    unfold bind at 1, call_number. cbn [this trace log].
    unfold elapsed, read_wave.
    destruct (engine_number env _ _) as [n|]; cbn [this trace log].
    + destruct (n =? 0).
      * unfold bind at 1.
        match goal with |- context [stop env ?w0] =>
          destruct (stop_returns env w0) as [b [w1 Hs]]
        end.
        rewrite Hs. unfold bind, emit, ret.
        do 2 eexists. split; [reflexivity|]. split; [reflexivity|].
        split; [discriminate|]. intros c0 _ Hn. discriminate.
      * unfold bind, heap, ret. cbn [this trace].
        do 2 eexists. split; [reflexivity|]. split; [apply fill_length|].
        split; [discriminate|]. intros c0 _ Hn. discriminate.
    + unfold bind, emit, ret. cbn [this trace log].
      do 2 eexists. split; [reflexivity|]. split; [reflexivity|].
      split; [discriminate|]. intros c0 _ _.
      split; [reflexivity|]. split; [reflexivity|].
      added_by_trace. reflexivity.
  - unfold bind, emit, ret.
    do 2 eexists. split; [reflexivity|]. split; [reflexivity|].
    split.
    + intros _. split; [reflexivity|]. split; [reflexivity|].
      added_by_trace. reflexivity.
    + intros c0 Hc0. discriminate.
Qed.

(** X20.  A callback whose read reports a number of bytes other than zero makes
    exactly two calls, the play event with the elapsed time and the read,
    and leaves the instance as it was: it neither stops nor ends the
    session.  When the number reported is negative, every slot of the
    chunk is set to silence. *)
Theorem handleOutput_chunk
        (env : environment) (size : Z) (out : list Q) (w : world)
        (c : Host.AudioContext) (n : Z) :
  context (this w) = Some c ->
  produced env size w = Some n ->
  n <> 0 ->
  exists out' w',
    handleOutput env size out w = (Ok out', w')
    /\ this w' = this w
    /\ added w w' = [Sink (emitPlay (elapsed c w)); read_wave size w]
    /\ (n < 0 ->
        forall i, 0 <= i < size -> (Z.to_nat i < length out)%nat ->
          nth (Z.to_nat i) out' 1%Q = 0%Q).
Proof.
  intros Hc Hn Hne.
  unfold produced in Hn. rewrite Hc in Hn.
  unfold handleOutput, try, bind, defined, gets, emit, call_number, heap,
    ret.
  rewrite Hc. cbn [this trace log].
  unfold elapsed, read_wave in *. rewrite Hn.
  destruct (Z.eqb_spec n 0) as [->|_]; [congruence|].
  cbn [this trace log].
  do 2 eexists. split; [reflexivity|]. split; [reflexivity|].
  split; [added_by_trace; reflexivity|].
  intros Hneg i Hi Hlen.
  rewrite (fill_slot _ _ _ _ 0 out i 1%Q) by lia.
  destruct (Z.ltb_spec i n); [lia|reflexivity].
Qed.

(** ** pause and resume with a context *)

(** X21.  With a context, [pause()] suspends it and [resume()] resumes it, and
    when the host accepts, each emits its event with the elapsed time,
    clock minus start time, and returns [true].  Neither ever changes the
    instance: the start time is the same after a pause and a resume. *)
Theorem pause_resume_with_context
        (env : environment) (w : world) (c : Host.AudioContext) :
  context (this w) = Some c ->
  (succeeds env (trace w) ContextSuspend = true ->
   pause env w
   = (Ok true, log (Sink (emitPause (elapsed c w))) (log ContextSuspend w)))
  /\ (succeeds env (trace w) ContextResume = true ->
      resume env w
      = (Ok true,
         log (Sink (emitResume (elapsed c w))) (log ContextResume w)))
  /\ this (snd (pause env w)) = this w
  /\ this (snd (resume env w)) = this w.
Proof.
  intros Hc.
  unfold pause, resume, try, bind, gets, defined, call_void, emit, ret,
    elapsed.
  rewrite Hc. cbn [this trace log].
  repeat split.
  - intros ->. cbn [this trace log]. rewrite Hc. reflexivity.
  - intros ->. cbn [this trace log]. rewrite Hc. reflexivity.
  - destruct (succeeds env (trace w) ContextSuspend); cbn [this trace log];
      try rewrite Hc; reflexivity.
  - destruct (succeeds env (trace w) ContextResume); cbn [this trace log];
      try rewrite Hc; reflexivity.
Qed.

(** ** preload and handleStream *)

Lemma handleStream_only (env : environment) (size fmt : Z)
      (P : action -> bool) :
  (forall n, P (Malloc n) = true) ->
  (forall d b, P (WriteArrayToMemory d b) = true) ->
  (forall f args, is_playback_call (Call f args) = false ->
                  P (Call f args) = true) ->
  only P (handleStream env size fmt).
Proof.
  intros H1 H2 H3. unfold handleStream.
  repeat match goal with
         | |- only _ (call_number _ (Malloc _)) =>
             apply only_call_number; apply H1
         | |- only _ (call_void _ (WriteArrayToMemory _ _)) =>
             apply only_call_void; apply H2
         | |- only _ (call_number _ (Call _ _)) =>
             apply only_call_number; apply H3; reflexivity
         | _ => frame_step
         end.
Qed.

Lemma preload_keeps {C : Type} (env : environment) (size fmt : Z)
      (f : player -> C) (items : list source_input)
      (ctx : option Host.AudioContext) :
  (forall v p, f (set_context v p) = f p) ->
  (forall v p, f (set_sampleRate v p) = f p) ->
  (forall v p, f (set_midiFileArray v p) = f p) ->
  (forall v p, f (set_midiFileBuffer v p) = f p) ->
  (forall v p, f (set_stream v p) = f p) ->
  (forall v p, f (set_song v p) = f p) ->
  keeps f (preload env size fmt items ctx).
Proof.
  intros H1 H2 H3 H4 H5 H6.
  induction items as [|item rest IH]; cbn [preload].
  - frame.
  - unfold initAudioContext, isSourceValid, getSource, handleStream.
    repeat match goal with
           | |- keeps _ (modify (set_context _)) =>
               apply keeps_modify; intro; apply H1
           | |- keeps _ (modify (set_sampleRate _)) =>
               apply keeps_modify; intro; apply H2
           | |- keeps _ (modify (set_midiFileArray _)) =>
               apply keeps_modify; intro; apply H3
           | |- keeps _ (modify (set_midiFileBuffer _)) =>
               apply keeps_modify; intro; apply H4
           | |- keeps _ (modify (set_stream _)) =>
               apply keeps_modify; intro; apply H5
           | |- keeps _ (modify (set_song _)) =>
               apply keeps_modify; intro; apply H6
           | |- keeps _ (getInstrumentPatches _) =>
               apply getInstrumentPatches_keeps
           | |- keeps _ (preload _ _ _ _ _) => apply IH
           | _ => frame_step
           end.
Qed.

Lemma preload_only_loading (env : environment) (size fmt : Z)
      (items : list source_input) (ctx : option Host.AudioContext) :
  only not_playback_call (preload env size fmt items ctx).
Proof.
  induction items as [|item rest IH]; cbn [preload].
  - frame.
  - unfold initAudioContext, isSourceValid, getSource.
    repeat match goal with
           | |- only _ (handleStream _ _ _) =>
               apply handleStream_only;
               [reflexivity|reflexivity
               |intros f args H; unfold not_playback_call; rewrite H;
                reflexivity]
           | |- only _ (getInstrumentPatches _) =>
               apply getInstrumentPatches_only; exact not_playback_accepts
           | |- only _ (preload _ _ _ _ _) => apply IH
           | _ => frame_step
           end.
Qed.

(** X18.  [preload] only loads: it never stops a session, never starts a song
    or reads wave data, never builds, suspends or resumes the output
    stage, never frees anything and emits none of the events of a session;
    the output stage, the gain node, the scratch buffer, the start time
    and the volume of the instance are as before. *)
Theorem preload_is_not_playback
        (env : environment) (size fmt : Z) (items : list source_input)
        (ctx : option Host.AudioContext) (w : world) :
  let w' := snd (preload env size fmt items ctx w) in
  filter is_playback_call (added w w') = []
  /\ source (this w') = source (this w)
  /\ gainNode (this w') = gainNode (this w)
  /\ waveBuffer (this w') = waveBuffer (this w)
  /\ startTime (this w') = startTime (this w)
  /\ volume (this w') = volume (this w).
Proof.
  cbn zeta. split.
  - destruct (preload_only_loading env size fmt items ctx w) as [l [Hl Pl]].
    rewrite (added_app _ _ l Hl). apply filter_none. exact Pl.
  - repeat split; apply preload_keeps; intros v []; reflexivity.
Qed.

(** X12.  [handleStream] replaces the handles of the instance by fresh ones and
    frees nothing: when it returns, the MIDI buffer is the address the
    engine gave for the allocation of as many bytes as the MIDI data has,
    the song is what the engine answered to the load, its calls are those
    of the first cycle, and the handles it found are overwritten, not
    released. *)
Theorem handleStream_replaces_handles
        (env : environment) (size fmt : Z) (data : list Z)
        (w w' : world) (options : Z) :
  midiFileArray (this w) = Some data ->
  handleStream env size fmt w = (Ok options, w') ->
  exists buffer s sg,
    added w w'
    = first_cycle data (sampleRate (this w)) fmt size buffer s options
    /\ engine_number env (trace w) (Malloc (Z.of_nat (length data)))
       = Some buffer
    /\ engine_number env
         (trace w
            ++ firstn 5 (first_cycle data (sampleRate (this w)) fmt size
                           buffer s options))
         (Call "mid_song_load" [ANum s; ANum options])
       = Some sg
    /\ this w'
       = set_song (Some sg)
           (set_stream (Some s) (set_midiFileBuffer (Some buffer) (this w)))
    /\ filter is_free (added w w') = [].
Proof.
  intros Hd H.
  unfold handleStream, bind, defined, gets, modify, call_number, call_void,
    ret in H.
  rewrite Hd in H. cbn [this trace log] in H.
  destruct (engine_number env (trace w) (Malloc _)) as [buffer|] eqn:Hm;
    cbn [this trace log] in H; [|discriminate].
  destruct (succeeds env _ (WriteArrayToMemory _ _));
    cbn [this trace log] in H; [|discriminate].
  destruct (engine_number env _ (Call "mid_init" _));
    cbn [this trace log] in H; [|discriminate].
  destruct (engine_number env _ (Call "mid_istream_open_mem" _)) as [s|];
    cbn [this trace log] in H; [|discriminate].
  destruct (engine_number env _ (Call "mid_create_options" _)) as [o|];
    cbn [this trace log] in H; [|discriminate].
  destruct (engine_number env _ (Call "mid_song_load" _)) as [sg|] eqn:Hl;
    cbn [this trace log] in H; [|discriminate].
  destruct (engine_number env _ (Call "mid_istream_close" _));
    cbn [this trace log] in H; [|discriminate].
  injection H as Ho Hw. subst o w'.
  exists buffer, s, sg.
  assert (Ha : forall p,
             added w {| this := p;
                        trace :=
                          trace w
                            ++ first_cycle data (sampleRate (this w)) fmt
                                 size buffer s options |}
             = first_cycle data (sampleRate (this w)) fmt size buffer s
                 options)
    by (intros p; apply added_app; reflexivity).
  unfold log. cbn [this trace].
  rewrite <- !app_assoc. cbn [app].
  change (sampleRate (set_stream (Some s)
                        (set_midiFileBuffer (Some buffer) (this w))))
    with (sampleRate (this w)) in *.
  fold (first_cycle data (sampleRate (this w)) fmt size buffer s options).
  rewrite Ha.
  split; [reflexivity|]. split; [reflexivity|].
  split; [|split; reflexivity].
  rewrite <- Hl. f_equal. cbn [firstn first_cycle].
  rewrite <- !app_assoc. reflexivity.
Qed.

(** ** The constructor *)

(** X22.  The constructor never throws and emits exactly one event after
    initialising the engine: the init event, or, when the initialisation
    throws, an error event.  Either way the volume, the patch location and
    the logger settings of the configuration are stored and the start time
    is 0; the first-instance flag is recorded only when the initialisation
    succeeded. *)
Theorem constructor_result
        (env : environment) (logger : option Z) (log0 : bool)
        (url0 : string) (v : JS.value) (first : bool) (w : world) :
  exists w',
    constructor env logger log0 url0 v first w = (Ok tt, w')
    /\ volume (this w') = v
    /\ patchUrl (this w') = url0
    /\ eventLogger (this w') = logger
    /\ logging (this w') = log0
    /\ startTime (this w') = 0%Q
    /\ if succeeds env (trace w) (Init first)
       then added w w' = [Init first; Sink emitInit]
            /\ isFirstInstance (this w') = first
       else added w w'
            = [Init first;
               Sink (emitError
                       [Text "Could not initialize instance of MidiPlayer."]
                       (Some (Caught CollaboratorError)))]
            /\ isFirstInstance (this w') = isFirstInstance (this w).
Proof.
  unfold constructor, try, bind, modify, call_void, emit, ret.
  cbn [this trace log].
  destruct (succeeds env (trace w) (Init first)); cbn [this trace log];
    eexists; (split; [reflexivity|]); repeat split;
    added_by_trace; reflexivity.
Qed.

(** ** play on a live session *)

Lemma play_after_stop
      (env : environment) (size fmt : Z) (input : source_input)
      (ctx : option Host.AudioContext) (w : world) :
  exists l,
    trace (snd (play env size fmt input ctx w))
    = trace (snd (stop env w)) ++ l.
Proof.
  unfold play, bind at 1.
  destruct (stop_returns env w) as [b [w1 Hs]]. rewrite Hs. cbn [snd].
  match goal with |- context [snd (?k ?w0)] =>
    assert (Hk : only (fun _ => true) k)
  end.
  { unfold initAudioContext, isSourceValid, getSource, loadSong,
      initPlayback, connectSource, createGainNode.
    repeat match goal with
           | |- only _ (handleStream _ _ _) =>
               apply handleStream_only; reflexivity
           | |- only _ (getInstrumentPatches _) =>
               apply getInstrumentPatches_only; repeat split
           | _ => frame_step
           end. }
  destruct (Hk w1) as [l [Hl _]]. exists l. exact Hl.
Qed.

(** X5.  A [play()] on a live session first releases it: when the collaborators
    do not fail, the calls of the invocation begin with the full release
    of the old session, stop event included, before the audio context is
    set up and before anything is allocated for the new song. *)
Theorem play_releases_previous_session
        (env : environment) (size fmt : Z) (input : source_input)
        (ctx : option Host.AudioContext) (w : world)
        (s : Host.ScriptProcessorNode) (c : Host.AudioContext) :
  reliable env ->
  source (this w) = Some s ->
  context (this w) = Some c ->
  exists l,
    added w (snd (play env size fmt input ctx w))
    = release_calls (this w) ++ l.
Proof.
  intros Hr Hs Hc.
  destruct (play_after_stop env size fmt input ctx w) as [l Hl].
  exists l. apply added_app. rewrite Hl.
  unfold stop, freeMemory, disconnectSource, try, bind, gets, defined,
    call_void, modify, emit, ret.
  rewrite Hs. cbn [this trace log].
  repeat (first [rewrite Hr | rewrite Hc | rewrite Hs];
          cbn [this trace log fst snd]).
  unfold release_calls. rewrite <- !app_assoc. reflexivity.
Qed.

(** ** The further properties at concrete instances *)

Lemma engine_answers_all (missing wave : Z) (failing0 : option string) :
  engine_answers (engine missing wave failing0).
Proof.
  repeat split.
  - intros tr a. destruct a; cbn; try discriminate.
    repeat match goal with
           | |- context [if ?b then _ else _] => destruct b
           end; discriminate.
  - intros tr a. destruct a as [| | | |f [|x [|[] [|]]]| | | | | | | | | | | | |];
      cbn; discriminate.
Qed.

Lemma stop_releases_live_session_witness :
  let env := engine 0 16 None in
  let w := playing env in
  (reliable env
   /\ source (this w) = Some {| Host.bufferSize := buffer_size |}
   /\ context (this w)
      = Some {| Host.sampleRate := 44100; Host.currentTime := 0 |})
  /\ exists w',
       stop env w = (Ok true, w')
       /\ added w w' = release_calls (this w)
       /\ this w'
          = set_startTime 0 (set_song (Some 0) (set_source None (this w))).
Proof.
  intros env w.
  split.
  - split; [apply engine_reliable|]. split; vm_compute; reflexivity.
  - apply (stop_releases_live_session env w
             {| Host.bufferSize := buffer_size |}
             {| Host.sampleRate := 44100; Host.currentTime := 0 |}).
    + apply engine_reliable.
    + vm_compute; reflexivity.
    + vm_compute; reflexivity.
Defined.


Lemma play_fetch_failure_witness :
  let env := with_network (Some 404) None (engine 0 16 None) in
  let w := fresh env in
  let w2 := snd (initAudioContext env None (snd (stop env w))) in
  let loading :=
    Sink (emitLoadFile
            ([Text "Loading"] ++ formatMidiName (name from_url)
               ++ [Text "..."])) in
  let w' := snd (play env buffer_size s16lsb from_url None w) in
  fetch_status env (trace w2 ++ [loading]) (Fetch (url from_url))
  <> Some 200
  /\ fst (play env buffer_size s16lsb from_url None w) = Ok (JS.VBool false)
  /\ (exists ev,
        added w2 w' = [loading; Fetch (url from_url); ev]
        /\ is_error_event ev = true)
  /\ this w' = this w2.
Proof.
  intros env w w2 loading w'.
  assert (Hs : fetch_status env (trace w2 ++ [loading])
                 (Fetch (url from_url)) <> Some 200)
    by (vm_compute; discriminate).
  split; [exact Hs|].
  apply (play_fetch_failure env buffer_size s16lsb from_url None w w2);
    try exact Hs; vm_compute; reflexivity.
Defined.

Lemma play_body_rejection_escapes_witness :
  let env := with_network (Some 200) None (engine 0 16 None) in
  let w := fresh env in
  let w2 := snd (initAudioContext env None (snd (stop env w))) in
  let loading :=
    Sink (emitLoadFile
            ([Text "Loading"] ++ formatMidiName (name from_url)
               ++ [Text "..."])) in
  let w' := snd (play env buffer_size s16lsb from_url None w) in
  fst (play env buffer_size s16lsb from_url None w) = Throw CollaboratorError
  /\ added w2 w' = [loading; Fetch (url from_url); ResponseArrayBuffer]
  /\ this w' = this w2.
Proof.
  intros env w w2 loading w'.
  apply (play_body_rejection_escapes env buffer_size s16lsb from_url None
           w w2); vm_compute; reflexivity.
Defined.

Lemma getInstrumentPatches_attempts_witness :
  let env := engine 3 16 (Some (patch_name 1)) in
  let w := ready env in
  let w' := snd (getInstrumentPatches env w) in
  let query :=
    Call "mid_song_get_num_missing_instruments" [arg_of (song (this w))] in
  let loading :=
    Sink (emitLoadPatch
            [Text "Loading "; Interp (JS.VNum (JS.Fin 3));
             Text " instrument patches..."]) in
  getInstrumentPatches env w = (Ok (JS.VBool false), w')
  /\ added w w'
     = query :: loading
         :: rounds (song (this w)) (patchUrl (this w)) 0
              [patch_name 0; patch_name 1]
         ++ patch_failure (JS.VBool false) 0 [patch_name 0; patch_name 1]
  /\ answered env (song (this w)) (patchUrl (this w))
       ((trace w ++ [query]) ++ [loading]) 0 [patch_name 0; patch_name 1]
       true
  /\ exists n names,
       engine_number env (trace w) query = Some n
       /\ this w' = this w
       /\ if 0 <? n
          then let loading0 :=
                 Sink (emitLoadPatch
                         [Text "Loading ";
                          Interp (JS.VNum (JS.Fin (inject_Z n)));
                          Text " instrument patches..."]) in
               added w w'
               = query :: loading0
                   :: rounds (song (this w)) (patchUrl (this w)) 0 names
                   ++ patch_failure (JS.VBool false) 0 names
               /\ ((JS.VBool false = JS.VUndefined
                    /\ length names = Z.to_nat n)
                   \/ (JS.VBool false = JS.VBool false
                       /\ (0 < length names <= Z.to_nat n)%nat))
               /\ answered env (song (this w)) (patchUrl (this w))
                    ((trace w ++ [query]) ++ [loading0]) 0 names
                    (is_false (JS.VBool false))
          else added w w' = [query] /\ JS.VBool false = JS.VUndefined
               /\ names = [].
Proof.
  intros env w w' query loading.
  assert (H : getInstrumentPatches env w = (Ok (JS.VBool false), w'))
    by (vm_compute; reflexivity).
  split; [exact H|].
  split; [vm_compute; reflexivity|].
  split; [vm_compute; auto|].
  exact (getInstrumentPatches_attempts env w w' (JS.VBool false) H).
Defined.


Lemma play_success_witness :
  let env := engine 2 16 None in
  let w := fresh env in
  let w2 := snd (initAudioContext env None (snd (stop env w))) in
  (reliable env /\ engine_answers env
   /\ arrayBuffer from_buffer = Some midi_bytes
   /\ JS.truthy_string (url from_buffer) = false
   /\ initAudioContext env None (snd (stop env w)) = (Ok true, w2))
  /\ exists c buffer w',
       play env buffer_size s16lsb from_buffer None w
       = (Ok JS.VUndefined, w')
       /\ context (this w') = Some c
       /\ source (this w') = Some {| Host.bufferSize := buffer_size |}
       /\ waveBuffer (this w') = Some buffer
       /\ gainNode (this w')
          = Some {| Host.gain := JS.div100 (volume (this w)) |}
       /\ startTime (this w') = Host.currentTime c
       /\ last (trace w') (Sink emitInit) = Sink (emitPlay 0).
Proof.
  intros env w w2.
  assert (Hi : initAudioContext env None (snd (stop env w)) = (Ok true, w2))
    by (vm_compute; reflexivity).
  split.
  - repeat split; try reflexivity; try exact Hi;
      try apply engine_reliable; apply engine_answers_all.
  - exact (play_success env buffer_size s16lsb from_buffer None midi_bytes
             w w2 (engine_reliable 2 16) (engine_answers_all 2 16 None)
             eq_refl eq_refl Hi).
Defined.

Lemma volume_set_before_play_is_applied_witness :
  let env := engine 0 16 None in
  let w := fresh env in
  let w1 := snd (setVolume (JS.VStr "50") w) in
  let w2 := snd (initAudioContext env None (snd (stop env w1))) in
  fst (setVolume (JS.VStr "50") w) = Throw TypeError
  /\ gainNode (this (snd (play env buffer_size s16lsb from_buffer None w1)))
     = Some {| Host.gain := JS.Fin (1 # 2) |}.
Proof.
  intros env w w1 w2.
  split; [vm_compute; reflexivity|].
  assert (Hi : initAudioContext env None (snd (stop env w1)) = (Ok true, w2))
    by (vm_compute; reflexivity).
  exact (volume_set_before_play_is_applied env buffer_size s16lsb
           from_buffer None midi_bytes (JS.VStr "50") w w2 eq_refl
           (engine_reliable 0 16) (engine_answers_all 0 16 None)
           eq_refl eq_refl Hi).
Defined.

Lemma handleOutput_never_throws_witness :
  let env := engine 0 16 None in
  let w := fresh env in
  let out := [1; 1; 1]%Q in
  context (this w) = None
  /\ exists w',
       handleOutput env buffer_size out w = (Ok out, w')
       /\ this w' = this w
       /\ added w w' = [audio_error TypeError].
Proof.
  intros env w out.
  assert (Hc : context (this w) = None) by reflexivity.
  split; [exact Hc|].
  destruct (handleOutput_never_throws env buffer_size out w)
    as [out' [w' [Hrun [_ [Hnone _]]]]].
  destruct (Hnone Hc) as [Ho [Ht Ha]].
  subst out'. exists w'. repeat split; assumption.
Defined.

Lemma handleOutput_chunk_witness :
  let env := engine 0 (-1) None in
  let w := later (playing env) in
  let c := {| Host.sampleRate := 44100; Host.currentTime := 1 # 4 |} in
  let out := [1; 1; 1]%Q in
  (context (this w) = Some c /\ produced env buffer_size w = Some (-1)
   /\ -1 <> 0 /\ -1 < 0)
  /\ exists out' w',
       handleOutput env buffer_size out w = (Ok out', w')
       /\ this w' = this w
       /\ added w w' = [Sink (emitPlay (elapsed c w)); read_wave buffer_size w]
       /\ forall i, 0 <= i < buffer_size -> (Z.to_nat i < length out)%nat ->
            nth (Z.to_nat i) out' 1%Q = 0%Q.
Proof.
  intros env w c out.
  assert (Hc : context (this w) = Some c) by (vm_compute; reflexivity).
  assert (Hp : produced env buffer_size w = Some (-1))
    by (vm_compute; reflexivity).
  split; [repeat split; try assumption; lia|].
  destruct (handleOutput_chunk env buffer_size out w c (-1) Hc Hp)
    as [out' [w' [Hrun [Ht [Ha Hz]]]]]; [lia|].
  exists out', w'. repeat split; try assumption.
  apply Hz. lia.
Defined.

Lemma pause_resume_with_context_witness :
  let env := engine 0 16 None in
  let w := later (playing env) in
  let c := {| Host.sampleRate := 44100; Host.currentTime := 1 # 4 |} in
  context (this w) = Some c
  /\ pause env w
     = (Ok true, log (Sink (emitPause (1 # 4))) (log ContextSuspend w))
  /\ resume env w
     = (Ok true, log (Sink (emitResume (1 # 4))) (log ContextResume w)).
Proof.
  intros env w c.
  assert (Hc : context (this w) = Some c) by (vm_compute; reflexivity).
  split; [exact Hc|].
  destruct (pause_resume_with_context env w c Hc) as [Hp [Hr _]].
  split.
  - rewrite (Hp eq_refl). vm_compute. reflexivity.
  - rewrite (Hr eq_refl). vm_compute. reflexivity.
Defined.

Lemma handleStream_replaces_handles_witness :
  let env := engine 0 16 None in
  let w := playing env in
  let w' := snd (handleStream env buffer_size s16lsb w) in
  let options := 28 in
  (midiFileArray (this w) = Some midi_bytes
   /\ handleStream env buffer_size s16lsb w = (Ok options, w'))
  /\ midiFileBuffer (this w') <> midiFileBuffer (this w)
  /\ exists buffer s sg,
       added w w'
       = first_cycle midi_bytes (sampleRate (this w)) s16lsb buffer_size
           buffer s options
       /\ this w'
          = set_song (Some sg)
              (set_stream (Some s)
                 (set_midiFileBuffer (Some buffer) (this w)))
       /\ filter is_free (added w w') = [].
Proof.
  intros env w w' options.
  assert (Hd : midiFileArray (this w) = Some midi_bytes)
    by (vm_compute; reflexivity).
  assert (Hh : handleStream env buffer_size s16lsb w = (Ok options, w'))
    by (vm_compute; reflexivity).
  split; [split; assumption|].
  split; [vm_compute; discriminate|].
  destruct (handleStream_replaces_handles env buffer_size s16lsb midi_bytes
              w w' options Hd Hh) as [buffer [s [sg [Ha [_ [_ [Ht Hf]]]]]]].
  exists buffer, s, sg. auto.
Defined.

Lemma play_releases_previous_session_witness :
  let env := engine 0 16 None in
  let w := playing env in
  (reliable env
   /\ source (this w) = Some {| Host.bufferSize := buffer_size |}
   /\ context (this w)
      = Some {| Host.sampleRate := 44100; Host.currentTime := 0 |})
  /\ exists l,
       added w (snd (play env buffer_size s16lsb from_buffer None w))
       = release_calls (this w) ++ l.
Proof.
  intros env w.
  assert (Hs : source (this w) = Some {| Host.bufferSize := buffer_size |})
    by (vm_compute; reflexivity).
  assert (Hc : context (this w)
               = Some {| Host.sampleRate := 44100; Host.currentTime := 0 |})
    by (vm_compute; reflexivity).
  split; [split; [apply engine_reliable|split; assumption]|].
  exact (play_releases_previous_session env buffer_size s16lsb from_buffer
           None w _ _ (engine_reliable 0 16) Hs Hc).
Defined.
